(** * Movie-App: the App component's search, selection and watched-list logic

    A shallow embedding of the [App] component (state hooks, event handlers
    and the two effects) and of the [Search] component's keydown listener,
    together with the part of the browser they run against: [localStorage],
    [fetch] with an [AbortController], the microtask queue and
    [document.activeElement].

    Worlds are observed between event-loop tasks: one [step] is one task (a
    user event or a network completion) followed by the microtasks it
    leaves behind. *)

From stdpp Require Import gmap strings list fin_maps.
From Stdlib Require Import ZArith DecimalString DecimalN Ascii.

Open Scope string_scope.
Open Scope list_scope.

(** ** JavaScript values *)

(** The values that JSON text represents exactly: the watched list, the
    movie objects and the body of a search response are of this kind.
    Numbers are the integral ones; the members of an object are listed in
    property order and are meant to have distinct keys. *)
Unset Elimination Schemes.
Inductive json : Type :=
| JNull
| JBool (b : bool)
| JNum (n : Z)
| JStr (s : string)
| JArr (items : list json)
| JObj (members : list (string * json)).
Set Elimination Schemes.

(** A thrown value: [err.name] and [err.message]. *)
Record JsError : Type := { err_name : string; err_message : string }.

Definition Error (message : string) : JsError :=
  {| err_name := "Error"; err_message := message |}.

Definition TypeError (message : string) : JsError :=
  {| err_name := "TypeError"; err_message := message |}.

Definition SyntaxError (message : string) : JsError :=
  {| err_name := "SyntaxError"; err_message := message |}.

(** What [fetch] and [response.json()] reject with once the signal they
    were given is aborted. *)
Definition AbortError : JsError :=
  {| err_name := "AbortError"; err_message := "The user aborted a request." |}.

(** The outcome of evaluating an expression, or of an awaited promise. *)
Inductive completion (A : Type) : Type :=
| Normal (a : A)
| Throw (e : JsError).
Arguments Normal {A} a.
Arguments Throw {A} e.

(** [s ? _ : _] and [!s] on a string: only the empty string is falsy. *)
Definition truthy (s : string) : bool :=
  match s with
  | EmptyString => false
  | String _ _ => true
  end.

Fixpoint assoc (k : string) (ms : list (string * json)) : option json :=
  match ms with
  | [] => None
  | (k', v) :: ms' => if String.eqb k k' then Some v else assoc k ms'
  end.

(** [v.k]: [None] is [undefined]. Reading a property of [null] throws;
    the other values without members answer [undefined]. *)
Definition get_prop (k : string) (v : json) : completion (option json) :=
  match v with
  | JNull => Throw (TypeError ("Cannot read properties of null (reading '" +:+ k +:+ "')"))
  | JObj ms => Normal (assoc k ms)
  | _ => Normal None
  end.

(** [x === s] for a string [s]. *)
Definition is_string (s : string) (x : option json) : bool :=
  match x with
  | Some (JStr s') => String.eqb s' s
  | _ => false
  end.

(** [v.k === s] on a value [v] that is not [null]. *)
Definition prop_is (k s : string) (v : json) : bool :=
  match get_prop k v with
  | Normal x => is_string s x
  | Throw _ => false
  end.

Definition is_null (v : json) : bool :=
  match v with
  | JNull => true
  | _ => false
  end.

(** ** The platform interface

    [JSON.parse] (which throws on text that is not JSON: [None]),
    [JSON.stringify], and [process.env.REACT_APP_API_KEY]. *)
Class Platform : Type := {
  JSON_parse : string -> option json;
  JSON_stringify : json -> string;
  apiKey : option string
}.

(** The guarantees of the JSON built-ins on the values of [json]: the text
    written for a value reads back as that value, and is never empty. *)
Class PlatformLaws (P : Platform) : Prop := {
  parse_stringify : forall v : json, JSON_parse (JSON_stringify v) = Some v;
  stringify_truthy : forall v : json, truthy (JSON_stringify v) = true
}.

(** ** The state of [App] (its six [useState] hooks) *)

Record AppState : Type := {
  movies : option json;        (* [None]: [undefined] *)
  isLoading : bool;
  error : string;
  query : string;
  selectedId : option string;  (* [None]: [null] *)
  watched : list json
}.

Definition setMovies (v : option json) (a : AppState) : AppState :=
  {| movies := v; isLoading := isLoading a; error := error a;
     query := query a; selectedId := selectedId a; watched := watched a |}.

Definition setIsLoading (b : bool) (a : AppState) : AppState :=
  {| movies := movies a; isLoading := b; error := error a;
     query := query a; selectedId := selectedId a; watched := watched a |}.

Definition setError (msg : string) (a : AppState) : AppState :=
  {| movies := movies a; isLoading := isLoading a; error := msg;
     query := query a; selectedId := selectedId a; watched := watched a |}.

Definition setQuery (q : string) (a : AppState) : AppState :=
  {| movies := movies a; isLoading := isLoading a; error := error a;
     query := q; selectedId := selectedId a; watched := watched a |}.

Definition setSelectedId (f : option string -> option string) (a : AppState) : AppState :=
  {| movies := movies a; isLoading := isLoading a; error := error a;
     query := query a; selectedId := f (selectedId a); watched := watched a |}.

Definition setWatched (f : list json -> list json) (a : AppState) : AppState :=
  {| movies := movies a; isLoading := isLoading a; error := error a;
     query := query a; selectedId := selectedId a; watched := f (watched a) |}.

(** The hooks' initial values, [watched] coming from its initializer. *)
Definition initial_app (w0 : list json) : AppState :=
  {| movies := Some (JArr []); isLoading := false; error := "";
     query := ""; selectedId := None; watched := w0 |}.

(** ** Event handlers

    In [handleDeleteWatched], [movie.imdbID] would throw on a [null]
    movie; the watched list never holds one ([watched_no_null]). *)

Definition handleSelectMovie (id : string) : AppState -> AppState :=
  setSelectedId (fun selectedId =>
    match selectedId with
    | Some cur => if String.eqb id cur then None else Some id
    | None => Some id
    end).

Definition handleCloseMovie : AppState -> AppState :=
  setSelectedId (fun _ => None).

Definition handleAddWatched (movie : json) : AppState -> AppState :=
  setWatched (fun watched => watched ++ [movie]).

Definition handleDeleteWatched (id : string) : AppState -> AppState :=
  setWatched (fun watched => List.filter (fun movie => negb (prop_is "imdbID" id movie)) watched).

(** ** Conditional rendering of the first [Box] *)

Definition showLoader (a : AppState) : bool := isLoading a.
Definition showResults (a : AppState) : bool := negb (isLoading a) && negb (truthy (error a)).
Definition showError (a : AppState) : bool := truthy (error a).

(** ** The browser around the component *)

(** What [document.activeElement] can be: the search input
    ([inputElement.current]) or something else. *)
Inductive Element : Type := SearchInput | Elsewhere.

(** Where a call of the async function [fetchMovies] stands. [Aborted]: its
    signal was aborted while it was awaiting, the awaited promise is
    rejected with [AbortError] and the function waits in the microtask
    queue to resume in its [catch]. *)
Inductive Phase : Type := AwaitingFetch | AwaitingJson | Aborted | Settled.

Record Request : Type := { req_url : string; req_phase : Phase }.

Definition in_phase (p : Phase) (r : Request) : Request :=
  {| req_url := req_url r; req_phase := p |}.

Definition awaiting (p : Phase) : bool :=
  match p with
  | AwaitingFetch | AwaitingJson => true
  | Aborted | Settled => false
  end.

Record World : Type := {
  appState : AppState;
  mounted : bool;                      (* [App] is on the page *)
  localStorage : gmap string string;
  requests : gmap nat Request;         (* the calls of [fetchMovies], by number *)
  issued : nat;                        (* how many there were *)
  cleanup : option nat;                (* the cleanup returned by the last run of the
                                          query effect: it aborts this call's controller *)
  microtasks : list nat;               (* [Aborted] calls waiting to resume *)
  activeElement : Element
}.

(** A state setter called with updater [f]; React drops it once the
    component is unmounted. *)
Definition set_state (f : AppState -> AppState) (w : World) : World :=
  {| appState := if mounted w then f (appState w) else appState w; mounted := mounted w;
     localStorage := localStorage w; requests := requests w; issued := issued w;
     cleanup := cleanup w; microtasks := microtasks w; activeElement := activeElement w |}.

Definition set_mounted (b : bool) (w : World) : World :=
  {| appState := appState w; mounted := b;
     localStorage := localStorage w; requests := requests w; issued := issued w;
     cleanup := cleanup w; microtasks := microtasks w; activeElement := activeElement w |}.

Definition setItem (k v : string) (w : World) : World :=
  {| appState := appState w; mounted := mounted w;
     localStorage := <[k := v]> (localStorage w); requests := requests w; issued := issued w;
     cleanup := cleanup w; microtasks := microtasks w; activeElement := activeElement w |}.

Definition set_request (k : nat) (r : Request) (w : World) : World :=
  {| appState := appState w; mounted := mounted w;
     localStorage := localStorage w; requests := <[k := r]> (requests w); issued := issued w;
     cleanup := cleanup w; microtasks := microtasks w; activeElement := activeElement w |}.

Definition set_issued (n : nat) (w : World) : World :=
  {| appState := appState w; mounted := mounted w;
     localStorage := localStorage w; requests := requests w; issued := n;
     cleanup := cleanup w; microtasks := microtasks w; activeElement := activeElement w |}.

Definition set_cleanup (c : option nat) (w : World) : World :=
  {| appState := appState w; mounted := mounted w;
     localStorage := localStorage w; requests := requests w; issued := issued w;
     cleanup := c; microtasks := microtasks w; activeElement := activeElement w |}.

Definition set_microtasks (q : list nat) (w : World) : World :=
  {| appState := appState w; mounted := mounted w;
     localStorage := localStorage w; requests := requests w; issued := issued w;
     cleanup := cleanup w; microtasks := q; activeElement := activeElement w |}.

Definition focus (el : Element) (w : World) : World :=
  {| appState := appState w; mounted := mounted w;
     localStorage := localStorage w; requests := requests w; issued := issued w;
     cleanup := cleanup w; microtasks := microtasks w; activeElement := el |}.

(** ** The watched list and [localStorage] *)

(** The initializer of the [watched] hook. The message of the
    [SyntaxError] is the engine's. *)
Definition watched_initializer `{Platform} (ls : gmap string string) : completion json :=
  let storedValue := ls !! "watched" in
  match storedValue with
  | Some s =>
      if truthy s
      then match JSON_parse s with
           | Some v => Normal v
           | None => Throw (SyntaxError "Unexpected token in JSON")
           end
      else Normal (JArr [])
  | None => Normal (JArr [])
  end.

(** The effect on [[watched]]. *)
Definition persist `{Platform} (w : World) : World :=
  setItem "watched" (JSON_stringify (JArr (watched (appState w)))) w.

(** The first render hands [watched] to [WatchedSummary], which calls
    [props.watched.map((movie) => movie.imdbRating)]: that throws unless
    the value is an array without [null] items. The children whose source
    is not at hand are taken to render what they are given. *)
Definition first_render (v : json) : completion (list json) :=
  match v with
  | JArr l =>
      if existsb is_null l
      then Throw (TypeError "Cannot read properties of null (reading 'imdbRating')")
      else Normal l
  | JNull => Throw (TypeError "Cannot read properties of null (reading 'map')")
  | _ => Throw (TypeError "props.watched.map is not a function")
  end.

(** ** The async function [fetchMovies] *)

Definition request_url `{Platform} (q : string) : string :=
  "http://www.omdbapi.com/?apikey=" +:+ default "undefined" apiKey +:+ "&s=" +:+ q.

(** [catch (err) { if (err.name !== "AbortError") setError(err.message) }] *)
Definition catch_ (err : JsError) (a : AppState) : AppState :=
  if String.eqb (err_name err) "AbortError" then a else setError (err_message err) a.

(** [finally { setIsLoading(false) }] *)
Definition finally_ (a : AppState) : AppState := setIsLoading false a.

(** From the start of the [try] block to [await fetch(...)]. *)
Definition fetchMovies_begin (a : AppState) : AppState :=
  setError "" (setIsLoading true a).

(** From the settled [fetch] promise ([Normal ok]: a response whose [ok]
    flag is [ok]) to [await response.json()] or to the end. *)
Definition fetchMovies_after_fetch (r : completion bool) (a : AppState) : AppState * Phase :=
  match r with
  | Throw err => (finally_ (catch_ err a), Settled)
  | Normal ok =>
      if negb ok
      then (finally_ (catch_ (Error "Something went wrong while fetching movies") a), Settled)
      else (a, AwaitingJson)
  end.

(** From the settled [response.json()] promise to the end. *)
Definition fetchMovies_after_json (r : completion json) (a : AppState) : AppState :=
  match r with
  | Throw err => finally_ (catch_ err a)
  | Normal data =>
      match get_prop "Response" data with
      | Throw err => finally_ (catch_ err a)
      | Normal response =>
          if is_string "False" response
          then finally_ (catch_ (Error "Movie not found") a)
          else
            match get_prop "Search" data with
            | Throw err => finally_ (catch_ err a)
            | Normal search => finally_ (setError "" (setMovies search a))
            end
      end
  end.

(** ** The effect on [[query]] *)

(** [controller.abort()] for call [k]: a call that is awaiting gets its
    promise rejected and is queued; any other is left alone. *)
Definition abort (k : nat) (w : World) : World :=
  match requests w !! k with
  | Some r =>
      if awaiting (req_phase r)
      then set_microtasks (microtasks w ++ [k]) (set_request k (in_phase Aborted r) w)
      else w
  | None => w
  end.

Definition run_cleanup (w : World) : World :=
  match cleanup w with
  | Some k => abort k w
  | None => w
  end.

(** The body of the effect, for the query just rendered. *)
Definition query_effect `{Platform} (w : World) : World :=
  let q := query (appState w) in
  if Nat.eqb (String.length q) 0
  then set_cleanup None (set_state (setError "") (set_state (setMovies (Some (JArr []))) w))
  else
    let k := issued w in
    let w1 := set_state handleCloseMovie w in
    let w2 := set_state fetchMovies_begin w1 in
    let w3 := set_request k {| req_url := request_url q; req_phase := AwaitingFetch |} w2 in
    set_cleanup (Some k) (set_issued (S k) w3).

(** [setQuery(q)]: no re-render when the value is the same; otherwise the
    re-render commits [q], runs the previous cleanup and then the effect. *)
Definition change_query `{Platform} (q : string) (w : World) : World :=
  if String.eqb q (query (appState w)) then w
  else query_effect (run_cleanup (set_state (setQuery q) w)).

(** ** Microtasks *)

(** An aborted call resumes: [catch] with the [AbortError], [finally]. *)
Definition resume_aborted (w : World) (k : nat) : World :=
  match requests w !! k with
  | Some r => set_request k (in_phase Settled r) (set_state (fun a => finally_ (catch_ AbortError a)) w)
  | None => w
  end.

Definition run_microtasks (w : World) : World :=
  set_microtasks [] (foldl resume_aborted w (microtasks w)).

(** ** Events *)

Inductive Event : Type :=
| Input (q : string)                        (* [onChange] of the search input *)
| KeyDown (code : string)                   (* [keydown] on the document *)
| Focus (el : Element)                      (* the user moves the focus *)
| SelectMovie (id : string)                 (* [onSelectMovie(id)] *)
| CloseMovie                                (* [onCloseMovie()] *)
| AddWatched (movie : list (string * json)) (* [onAddWatched(movie)], [movie] an object *)
| DeleteWatched (id : string)               (* [onDeleteWatched(id)] *)
| FetchSettled (k : nat) (r : completion bool)   (* the [fetch] promise of call [k] *)
| JsonSettled (k : nat) (r : completion json)    (* its [response.json()] promise *)
| Unmount.

(** The keydown listener of [Search]. *)
Definition callback `{Platform} (code : string) (w : World) : World :=
  match activeElement w with
  | SearchInput => w
  | Elsewhere =>
      if String.eqb code "Enter"
      then change_query "" (focus SearchInput w)
      else w
  end.

Definition on_fetch_settled (k : nat) (r : completion bool) (w : World) : World :=
  match requests w !! k with
  | Some req =>
      match req_phase req with
      | AwaitingFetch =>
          let w' := set_state (fun a => fst (fetchMovies_after_fetch r a)) w in
          set_request k (in_phase (snd (fetchMovies_after_fetch r (appState w))) req) w'
      | _ => w
      end
  | None => w
  end.

Definition on_json_settled (k : nat) (r : completion json) (w : World) : World :=
  match requests w !! k with
  | Some req =>
      match req_phase req with
      | AwaitingJson =>
          set_request k (in_phase Settled req) (set_state (fetchMovies_after_json r) w)
      | _ => w
      end
  | None => w
  end.

(** The task of an event. User events reach the component only while it
    is mounted; promises settle whether it is or not. *)
Definition handle `{Platform} (e : Event) (w : World) : World :=
  match e with
  | Focus el => focus el w
  | FetchSettled k r => on_fetch_settled k r w
  | JsonSettled k r => on_json_settled k r w
  | _ =>
      if mounted w then
        match e with
        | Input q => change_query q w
        | KeyDown code => callback code w
        | SelectMovie id => set_state (handleSelectMovie id) w
        | CloseMovie => set_state handleCloseMovie w
        | AddWatched movie => persist (set_state (handleAddWatched (JObj movie)) w)
        | DeleteWatched id => persist (set_state (handleDeleteWatched id) w)
        | Unmount => set_mounted false (set_cleanup None (run_cleanup w))
        | _ => w
        end
      else w
  end.

(** One turn of the event loop: the task, then the microtask queue. *)
Definition step `{Platform} (e : Event) (w : World) : World :=
  run_microtasks (handle e w).

Definition run `{Platform} (es : list Event) (w : World) : World :=
  foldl (fun w e => step e w) w es.

(** The world once [App] is mounted with [watched] initialised to [l]:
    both effects have run, in the order they are declared. *)
Definition mounted_world `{Platform} (ls : gmap string string) (l : list json) (el : Element) : World :=
  run_microtasks (query_effect (persist
    {| appState := initial_app l; mounted := true; localStorage := ls;
       requests := ∅; issued := 0; cleanup := None; microtasks := [];
       activeElement := el |})).

(** Mounting [App] over a given [localStorage]: the initializers, the
    first render, then the effects. *)
Definition mount `{Platform} (ls : gmap string string) (el : Element) : completion World :=
  match watched_initializer ls with
  | Throw e => Throw e
  | Normal v =>
      match first_render v with
      | Throw e => Throw e
      | Normal l => Normal (mounted_world ls l el)
      end
  end.

Inductive reachable `{Platform} : World -> Prop :=
| reachable_mount ls el w : mount ls el = Normal w -> reachable w
| reachable_step e w : reachable w -> reachable (step e w).

(** How many watched movies carry the identifier [id]. *)
Definition count_id (id : string) (l : list json) : nat :=
  length (List.filter (prop_is "imdbID" id) l).

(** Exactly one of three flags is set. *)
Definition exactly_one (b1 b2 b3 : bool) : bool :=
  match b1, b2, b3 with
  | true, false, false | false, true, false | false, false, true => true
  | _, _, _ => false
  end.

(** ** A reference platform

    An implementation of the two JSON built-ins on [json]: the compact
    text that [JSON.stringify] writes (strings are byte strings) and a
    reader for that text. It is one [Platform] on which [PlatformLaws]
    holds; the properties of [App] are proved for every platform. *)
Module RefJSON.

Definition dquote : ascii := "034"%char.
Definition backslash : ascii := "092"%char.

Definition hex_digit (n : N) : ascii :=
  ascii_of_N (if (n <? 10)%N then 48 + n else 87 + n)%N.

Definition hex_value (c : ascii) : option N :=
  let n := N_of_ascii c in
  if ((48 <=? n) && (n <=? 57))%N then Some (n - 48)%N
  else if ((97 <=? n) && (n <=? 102))%N then Some (n - 87)%N
  else if ((65 <=? n) && (n <=? 70))%N then Some (n - 55)%N
  else None.

(** How [JSON.stringify] writes one character of a string. *)
Definition escape_char (c : ascii) : string :=
  let n := N_of_ascii c in
  if (n =? 34)%N then String backslash (String dquote "")
  else if (n =? 92)%N then String backslash (String backslash "")
  else if (n =? 8)%N then String backslash "b"
  else if (n =? 9)%N then String backslash "t"
  else if (n =? 10)%N then String backslash "n"
  else if (n =? 12)%N then String backslash "f"
  else if (n =? 13)%N then String backslash "r"
  else if (n <? 32)%N
       then String backslash (String "u" (String "0" (String "0"
              (String (hex_digit (n / 16)) (String (hex_digit (n mod 16)) "")))))
  else String c "".

Fixpoint escape (s : string) : string :=
  match s with
  | EmptyString => ""
  | String c s' => escape_char c +:+ escape s'
  end.

Definition quote (s : string) : string :=
  String dquote (escape s +:+ String dquote "").

Definition write_N (n : N) : string := NilEmpty.string_of_uint (N.to_uint n).

Definition write_Z (z : Z) : string :=
  if (z <? 0)%Z then String "-" (write_N (Z.abs_N z)) else write_N (Z.abs_N z).

Definition write_items (f : json -> string) : list json -> string :=
  fix rest (l : list json) : string :=
    match l with
    | [] => "]"
    | y :: l' => String "," (f y +:+ rest l')
    end.

Definition write_members (f : json -> string) : list (string * json) -> string :=
  fix rest (ms : list (string * json)) : string :=
    match ms with
    | [] => "}"
    | (k, y) :: ms' => String "," (quote k +:+ String ":" (f y +:+ rest ms'))
    end.

Fixpoint stringify (v : json) : string :=
  match v with
  | JNull => "null"
  | JBool true => "true"
  | JBool false => "false"
  | JNum n => write_Z n
  | JStr s => quote s
  | JArr [] => "[]"
  | JArr (x :: l) => String "[" (stringify x +:+ write_items stringify l)
  | JObj [] => "{}"
  | JObj ((k, x) :: ms) =>
      String "{" (quote k +:+ String ":" (stringify x +:+ write_members stringify ms))
  end.

(** Reading *)

Definition unescape (e : ascii) : option ascii :=
  let n := N_of_ascii e in
  if (n =? 34)%N then Some dquote
  else if (n =? 92)%N then Some backslash
  else if (n =? 47)%N then Some "/"%char
  else if (n =? 98)%N then Some "008"%char
  else if (n =? 116)%N then Some "009"%char
  else if (n =? 110)%N then Some "010"%char
  else if (n =? 102)%N then Some "012"%char
  else if (n =? 114)%N then Some "013"%char
  else None.

Definition hex4 (h1 h2 h3 h4 : ascii) : option ascii :=
  match hex_value h1, hex_value h2, hex_value h3, hex_value h4 with
  | Some a, Some b, Some c, Some d =>
      if ((a =? 0) && (b =? 0))%N then Some (ascii_of_N (16 * c + d)) else None
  | _, _, _, _ => None
  end.

Definition cons_char (c : ascii) (r : option (string * string)) : option (string * string) :=
  match r with
  | Some (s, rest) => Some (String c s, rest)
  | None => None
  end.

(** The characters of a string literal up to its closing quote. *)
Fixpoint read_chars (s : string) : option (string * string) :=
  match s with
  | EmptyString => None
  | String c s' =>
      let n := N_of_ascii c in
      if (n =? 34)%N then Some ("", s')
      else if (n =? 92)%N then
        match s' with
        | String e s'' =>
            if (N_of_ascii e =? 117)%N then
              match s'' with
              | String h1 (String h2 (String h3 (String h4 t))) =>
                  match hex4 h1 h2 h3 h4 with
                  | Some c' => cons_char c' (read_chars t)
                  | None => None
                  end
              | _ => None
              end
            else
              match unescape e with
              | Some c' => cons_char c' (read_chars s'')
              | None => None
              end
        | EmptyString => None
        end
      else if (n <? 32)%N then None
      else cons_char c (read_chars s')
  end.

Definition is_digit (c : ascii) : bool :=
  let n := N_of_ascii c in ((48 <=? n) && (n <=? 57))%N.

Fixpoint span_digits (s : string) : string * string :=
  match s with
  | String c s' =>
      if is_digit c
      then let (d, r) := span_digits s' in (String c d, r)
      else ("", s)
  | EmptyString => ("", "")
  end.

Definition read_N (s : string) : option (N * string) :=
  match span_digits s with
  | (EmptyString, _) => None
  | (d, r) =>
      match NilEmpty.uint_of_string d with
      | Some u => Some (N.of_uint u, r)
      | None => None
      end
  end.

Fixpoint strip_prefix (word s : string) : option string :=
  match word, s with
  | EmptyString, _ => Some s
  | String a word', String b s' => if Ascii.eqb a b then strip_prefix word' s' else None
  | String _ _, EmptyString => None
  end.

Definition expect (word : string) (v : json) (s : string) : option (json * string) :=
  match strip_prefix word s with
  | Some r => Some (v, r)
  | None => None
  end.

Fixpoint read_value (fuel : nat) (s : string) : option (json * string) :=
  match fuel with
  | O => None
  | S fuel =>
      match s with
      | EmptyString => None
      | String c s' =>
          let n := N_of_ascii c in
          if (n =? 110)%N then expect "ull" JNull s'
          else if (n =? 116)%N then expect "rue" (JBool true) s'
          else if (n =? 102)%N then expect "alse" (JBool false) s'
          else if (n =? 34)%N then
            match read_chars s' with
            | Some (str, r) => Some (JStr str, r)
            | None => None
            end
          else if (n =? 91)%N then
            match s' with
            | String c' r =>
                if (N_of_ascii c' =? 93)%N then Some (JArr [], r)
                else
                  match read_items fuel s' with
                  | Some (l, r') => Some (JArr l, r')
                  | None => None
                  end
            | EmptyString => None
            end
          else if (n =? 123)%N then
            match s' with
            | String c' r =>
                if (N_of_ascii c' =? 125)%N then Some (JObj [], r)
                else
                  match read_members fuel s' with
                  | Some (ms, r') => Some (JObj ms, r')
                  | None => None
                  end
            | EmptyString => None
            end
          else if (n =? 45)%N then
            match read_N s' with
            | Some (m, r) => Some (JNum (- Z.of_N m), r)
            | None => None
            end
          else
            match read_N s with
            | Some (m, r) => Some (JNum (Z.of_N m), r)
            | None => None
            end
      end
  end
with read_items (fuel : nat) (s : string) : option (list json * string) :=
  match fuel with
  | O => None
  | S fuel =>
      match read_value fuel s with
      | Some (v, String c r) =>
          if (N_of_ascii c =? 44)%N then
            match read_items fuel r with
            | Some (l, r') => Some (v :: l, r')
            | None => None
            end
          else if (N_of_ascii c =? 93)%N then Some ([v], r)
          else None
      | _ => None
      end
  end
with read_members (fuel : nat) (s : string) : option (list (string * json) * string) :=
  match fuel with
  | O => None
  | S fuel =>
      match s with
      | String q s' =>
          if (N_of_ascii q =? 34)%N then
            match read_chars s' with
            | Some (k, String colon s'') =>
                if (N_of_ascii colon =? 58)%N then
                  match read_value fuel s'' with
                  | Some (v, String c r) =>
                      if (N_of_ascii c =? 44)%N then
                        match read_members fuel r with
                        | Some (ms, r') => Some ((k, v) :: ms, r')
                        | None => None
                        end
                      else if (N_of_ascii c =? 125)%N then Some ([(k, v)], r)
                      else None
                  | _ => None
                  end
                else None
            | _ => None
            end
          else None
      | EmptyString => None
      end
  end.

Definition parse (s : string) : option json :=
  match read_value (S (2 * String.length s)) s with
  | Some (v, EmptyString) => Some v
  | _ => None
  end.

Definition nondigit_start (s : string) : Prop :=
  match s with
  | EmptyString => True
  | String c _ => is_digit c = false
  end.

Definition value_start (c : ascii) : bool :=
  let n := N_of_ascii c in
  ((n =? 110) || (n =? 116) || (n =? 102) || (n =? 34) || (n =? 91) || (n =? 123)
   || (n =? 45))%N || is_digit c.

Definition items_need (f : json -> nat) : list json -> nat :=
  fix go (l : list json) : nat :=
    match l with
    | [] => 0
    | x :: l' => S (f x + go l')
    end.

Definition members_need (f : json -> nat) : list (string * json) -> nat :=
  fix go (ms : list (string * json)) : nat :=
    match ms with
    | [] => 0
    | (_, x) :: ms' => S (f x + go ms')
    end.

(** Fuel that reading the text of a value takes. *)
Fixpoint need (v : json) : nat :=
  match v with
  | JArr l => S (items_need need l)
  | JObj ms => S (members_need need ms)
  | _ => 1
  end.

Definition reads_back (v : json) : Prop :=
  forall rest fuel, nondigit_start rest -> need v <= fuel ->
    read_value fuel (stringify v +:+ rest) = Some (v, rest).

End RefJSON.

Definition reference_platform : Platform :=
  {| JSON_parse := RefJSON.parse; JSON_stringify := RefJSON.stringify;
     apiKey := Some "4a3b711b" |}.

(** ** The invariant of reachable worlds *)

Record Inv `{Platform} (w : World) : Prop := {
  (* between tasks the microtask queue is empty *)
  inv_queue : microtasks w = [];
  (* a call that has not finished is the one the cleanup will abort *)
  inv_live : forall k r, requests w !! k = Some r ->
    req_phase r = Settled \/
    (cleanup w = Some k /\ awaiting (req_phase r) = true /\ mounted w = true);
  inv_fresh : forall k r, requests w !! k = Some r -> k < issued w;
  (* the cleanup belongs to the call issued last *)
  inv_latest : forall k, cleanup w = Some k -> issued w = S k;
  inv_loading : isLoading (appState w) = true ->
    error (appState w) = "" /\
    (mounted w = true ->
     exists k r, cleanup w = Some k /\ requests w !! k = Some r /\ awaiting (req_phase r) = true);
  inv_idle : query (appState w) = "" ->
    movies (appState w) = Some (JArr []) /\ error (appState w) = "" /\
    isLoading (appState w) = false /\ cleanup w = None;
  inv_storage :
    localStorage w !! "watched" = Some (JSON_stringify (JArr (watched (appState w))));
  inv_no_null : existsb is_null (watched (appState w)) = false
}.

(** Whether the call that the cleanup will abort is still awaiting. *)
Definition in_flight (w : World) : bool :=
  match cleanup w with
  | Some k =>
      match requests w !! k with
      | Some r => awaiting (req_phase r)
      | None => false
      end
  | None => false
  end.

(** ** Worlds and values for the examples *)

(** [App] mounted over an empty [localStorage]. *)
Definition demo_world : World := @mounted_world reference_platform ∅ [] Elsewhere.

Definition batman_body : json :=
  JObj [("Search", JArr [JObj [("Title", JStr "Batman"); ("imdbID", JStr "tt1")]]);
        ("Response", JStr "True")].

Definition joker_body : json :=
  JObj [("Search", JArr [JObj [("Title", JStr "Joker"); ("imdbID", JStr "tt2")]]);
        ("Response", JStr "True")].

Definition not_found_body : json :=
  JObj [("Response", JStr "False"); ("Error", JStr "Movie not found!")].

Definition batman_record : list (string * json) :=
  [("imdbID", JStr "tt1"); ("title", JStr "Batman"); ("runtime", JNum 126);
   ("imdbRating", JNum 8); ("userRating", JNum 9)].

Definition joker_record : list (string * json) :=
  [("imdbID", JStr "tt2"); ("title", JStr "Joker"); ("runtime", JNum 122);
   ("imdbRating", JNum 8); ("userRating", JNum 7)].

(** * Facts about the reference platform *)

Module RefJSONFacts.
Import RefJSON.

Lemma append_cons (x : ascii) (a b : string) : String x a +:+ b = String x (a +:+ b).
Proof. reflexivity. Qed.

Lemma append_assoc (a b c : string) : (a +:+ b) +:+ c = a +:+ (b +:+ c).
Proof. induction a as [|x a IH]; [done|]. rewrite !append_cons. by rewrite IH. Qed.

Lemma length_append (a b : string) : String.length (a +:+ b) = String.length a + String.length b.
Proof. induction a as [|x a IH]; [done|]. rewrite append_cons. simpl. by rewrite IH. Qed.

Lemma read_chars_escape_char (c : ascii) (rest : string) :
  read_chars (escape_char c +:+ rest) = cons_char c (read_chars rest).
Proof. destruct c as [[] [] [] [] [] [] [] []]; reflexivity. Qed.

Lemma read_chars_escape (s rest : string) :
  read_chars (escape s +:+ String dquote rest) = Some (s, rest).
Proof.
  induction s as [|c s IH]; [done|].
  cbn [escape]. rewrite append_assoc, read_chars_escape_char, IH. reflexivity.
Qed.

Lemma quote_append (s rest : string) :
  quote s +:+ rest = String dquote (escape s +:+ String dquote rest).
Proof. unfold quote. rewrite append_cons. by rewrite append_assoc. Qed.

Lemma span_digits_uint (u : Decimal.uint) (rest : string) :
  nondigit_start rest ->
  span_digits (NilEmpty.string_of_uint u +:+ rest) = (NilEmpty.string_of_uint u, rest).
Proof.
  intros Hr.
  induction u; cbn [NilEmpty.string_of_uint]; rewrite ?append_cons;
    try (cbn [span_digits]; rewrite IHu; reflexivity).
  change (span_digits rest = ("", rest)).
  destruct rest as [|c rest]; [done|]. simpl in *. by rewrite Hr.
Qed.

Lemma to_uint_not_nil (n : N) : N.to_uint n <> Decimal.Nil.
Proof.
  intros Hn. pose proof (Unsigned.of_to n) as Hof. rewrite Hn in Hof.
  simpl in Hof. subst n. discriminate.
Qed.

Lemma read_N_write (n : N) (rest : string) :
  nondigit_start rest -> read_N (write_N n +:+ rest) = Some (n, rest).
Proof.
  intros Hr. unfold read_N, write_N. rewrite span_digits_uint by done.
  pose proof (to_uint_not_nil n) as Hn.
  destruct (NilEmpty.string_of_uint (N.to_uint n)) eqn:E.
  - destruct (N.to_uint n); done.
  - rewrite <- E, NilEmpty.usu, Unsigned.of_to. done.
Qed.

Lemma write_N_head (n : N) :
  exists c t, write_N n = String c t /\ is_digit c = true.
Proof.
  unfold write_N. pose proof (to_uint_not_nil n) as Hn.
  destruct (N.to_uint n); [done|..]; cbn; eauto.
Qed.

Lemma json_ind (Q : json -> Prop) :
  Q JNull -> (forall b, Q (JBool b)) -> (forall n, Q (JNum n)) -> (forall s, Q (JStr s)) ->
  (forall l, Forall Q l -> Q (JArr l)) ->
  (forall ms, Forall (fun kv => Q (snd kv)) ms -> Q (JObj ms)) ->
  forall v, Q v.
Proof.
  intros Hnull Hbool Hnum Hstr Harr Hobj.
  fix IH 1. intros [ |b|n|s|l|ms].
  - exact Hnull.
  - apply Hbool.
  - apply Hnum.
  - apply Hstr.
  - apply Harr. induction l as [|x l IHl]; constructor; [apply IH|exact IHl].
  - apply Hobj. induction ms as [|[k x] ms IHms]; constructor; [apply IH|exact IHms].
Qed.

Lemma stringify_head (v : json) :
  exists c t, stringify v = String c t /\ value_start c = true.
Proof.
  destruct v as [ |[]|n|s|[|x l]|[|[k x] ms]]; try (eexists _, _; split; [reflexivity|reflexivity]).
  cbn [stringify]. unfold write_Z. destruct (n <? 0)%Z.
  - eexists _, _; split; reflexivity.
  - destruct (write_N_head (Z.abs_N n)) as (c & t & -> & Hc).
    exists c, t. split; [done|]. unfold value_start. rewrite Hc. apply orb_true_r.
Qed.

Lemma value_start_not_close (c : ascii) :
  value_start c = true ->
  (N_of_ascii c =? 93)%N = false /\ (N_of_ascii c =? 125)%N = false.
Proof. destruct c as [[] [] [] [] [] [] [] []]; cbv; intros; split; congruence. Qed.

Lemma read_value_S (fuel : nat) (c : ascii) (s : string) :
  read_value (S fuel) (String c s) =
    let n := N_of_ascii c in
    if (n =? 110)%N then expect "ull" JNull s
    else if (n =? 116)%N then expect "rue" (JBool true) s
    else if (n =? 102)%N then expect "alse" (JBool false) s
    else if (n =? 34)%N then
      match read_chars s with
      | Some (str, r) => Some (JStr str, r)
      | None => None
      end
    else if (n =? 91)%N then
      match s with
      | String c' r =>
          if (N_of_ascii c' =? 93)%N then Some (JArr [], r)
          else
            match read_items fuel s with
            | Some (l, r') => Some (JArr l, r')
            | None => None
            end
      | EmptyString => None
      end
    else if (n =? 123)%N then
      match s with
      | String c' r =>
          if (N_of_ascii c' =? 125)%N then Some (JObj [], r)
          else
            match read_members fuel s with
            | Some (ms, r') => Some (JObj ms, r')
            | None => None
            end
      | EmptyString => None
      end
    else if (n =? 45)%N then
      match read_N s with
      | Some (m, r) => Some (JNum (- Z.of_N m), r)
      | None => None
      end
    else
      match read_N (String c s) with
      | Some (m, r) => Some (JNum (Z.of_N m), r)
      | None => None
      end.
Proof. reflexivity. Qed.

Lemma read_items_S (fuel : nat) (s : string) :
  read_items (S fuel) s =
    match read_value fuel s with
    | Some (v, String c r) =>
        if (N_of_ascii c =? 44)%N then
          match read_items fuel r with
          | Some (l, r') => Some (v :: l, r')
          | None => None
          end
        else if (N_of_ascii c =? 93)%N then Some ([v], r)
        else None
    | _ => None
    end.
Proof. reflexivity. Qed.

Lemma read_members_S (fuel : nat) (q : ascii) (s : string) :
  read_members (S fuel) (String q s) =
    if (N_of_ascii q =? 34)%N then
      match read_chars s with
      | Some (k, String colon s'') =>
          if (N_of_ascii colon =? 58)%N then
            match read_value fuel s'' with
            | Some (v, String c r) =>
                if (N_of_ascii c =? 44)%N then
                  match read_members fuel r with
                  | Some (ms, r') => Some ((k, v) :: ms, r')
                  | None => None
                  end
                else if (N_of_ascii c =? 125)%N then Some ([(k, v)], r)
                else None
            | _ => None
            end
          else None
      | _ => None
      end
    else None.
Proof. reflexivity. Qed.

Lemma write_items_cons (f : json -> string) (y : json) (l : list json) :
  write_items f (y :: l) = String "," (f y +:+ write_items f l).
Proof. reflexivity. Qed.

Lemma write_members_cons (f : json -> string) (k : string) (y : json) (ms : list (string * json)) :
  write_members f ((k, y) :: ms) = String "," (quote k +:+ String ":" (f y +:+ write_members f ms)).
Proof. reflexivity. Qed.

Lemma read_items_write (l : list json) :
  Forall reads_back l ->
  forall x rest fuel, reads_back x -> nondigit_start rest ->
    S (need x + items_need need l) <= fuel ->
    read_items fuel (stringify x +:+ (write_items stringify l +:+ rest)) = Some (x :: l, rest).
Proof.
  induction 1 as [|y l Hy Hl IH]; intros x rest fuel Hx Hrest Hfuel;
    (destruct fuel as [|fuel]; [lia|]); rewrite read_items_S.
  - rewrite Hx; [|done|cbn [items_need] in Hfuel; lia]. reflexivity.
  - rewrite Hx; [|done|cbn [items_need] in Hfuel; lia].
    rewrite write_items_cons, append_cons, append_assoc.
    change (N_of_ascii "," =? 44)%N with true. cbn iota.
    rewrite IH; [done|done|done|]. cbn [items_need] in Hfuel. lia.
Qed.

Lemma read_members_write (ms : list (string * json)) :
  Forall (fun kv => reads_back (snd kv)) ms ->
  forall k x rest fuel, reads_back x -> nondigit_start rest ->
    S (need x + members_need need ms) <= fuel ->
    read_members fuel (quote k +:+ String ":" (stringify x +:+ (write_members stringify ms +:+ rest)))
      = Some ((k, x) :: ms, rest).
Proof.
  induction 1 as [|[k' y] ms Hy Hms IH]; intros k x rest fuel Hx Hrest Hfuel;
    (destruct fuel as [|fuel]; [lia|]); rewrite quote_append, read_members_S;
    change (N_of_ascii dquote =? 34)%N with true; cbn iota;
    rewrite read_chars_escape;
    change (N_of_ascii ":" =? 58)%N with true; cbn iota.
  - rewrite Hx; [|done|cbn [members_need] in Hfuel; lia]. reflexivity.
  - rewrite Hx; [|done|cbn [members_need] in Hfuel; lia].
    rewrite write_members_cons, append_cons, !append_assoc, append_cons, append_assoc.
    change (N_of_ascii "," =? 44)%N with true. cbn iota.
    rewrite IH; [done|done|done|]. cbn [members_need] in Hfuel. lia.
Qed.

Lemma read_value_stringify (v : json) : reads_back v.
Proof.
  induction v as [ |b|n|s|l IH|ms IH] using json_ind; intros rest fuel Hrest Hfuel;
    (destruct fuel as [|fuel]; [cbn in Hfuel; lia|]).
  - reflexivity.
  - destruct b; reflexivity.
  - cbn [stringify]. unfold write_Z. destruct (Z.ltb_spec n 0) as [Hn|Hn].
    + rewrite append_cons, read_value_S.
      change (N_of_ascii "-") with 45%N. cbn.
      rewrite read_N_write by done. do 2 f_equal. f_equal. lia.
    + destruct (write_N_head (Z.abs_N n)) as (c & t & E & Hc).
      pose proof (read_N_write (Z.abs_N n) rest Hrest) as Hread.
      rewrite E in *. rewrite append_cons in *. rewrite read_value_S.
      assert (Hsel : forall (A : Type) (a1 a2 a3 a4 a5 a6 a7 a8 : A),
        (let n := N_of_ascii c in
         if (n =? 110)%N then a1 else if (n =? 116)%N then a2 else if (n =? 102)%N then a3
         else if (n =? 34)%N then a4 else if (n =? 91)%N then a5 else if (n =? 123)%N then a6
         else if (n =? 45)%N then a7 else a8) = a8).
      { clear -Hc. destruct c as [[] [] [] [] [] [] [] []]; try discriminate Hc; reflexivity. }
      rewrite Hsel, Hread. do 2 f_equal. f_equal. lia.
  - cbn [stringify]. rewrite quote_append, read_value_S.
    change (N_of_ascii dquote) with 34%N. cbn. by rewrite read_chars_escape.
  - destruct l as [|x l]; [reflexivity|].
    cbn [stringify]. rewrite append_cons, append_assoc, read_value_S.
    change (N_of_ascii "[") with 91%N. cbn -[read_items stringify write_items String.append].
    inversion IH as [|? ? Hx Hl]; subst.
    pose proof (read_items_write l Hl x rest fuel Hx Hrest) as Hread.
    destruct (stringify_head x) as (c & t & E & Hc).
    rewrite E in *. rewrite append_cons in *.
    destruct (value_start_not_close c Hc) as [-> _].
    rewrite Hread; [done|]. cbn [need] in Hfuel. cbn [items_need] in Hfuel. lia.
  - destruct ms as [|[k x] ms]; [reflexivity|].
    cbn [stringify]. rewrite append_cons, !append_assoc, append_cons, append_assoc, read_value_S.
    change (N_of_ascii "{") with 123%N. cbn -[read_members stringify write_members String.append quote].
    inversion IH as [|? ? Hx Hms]; subst. cbn [snd] in Hx.
    pose proof (read_members_write ms Hms k x rest fuel Hx Hrest) as Hread.
    rewrite quote_append in *.
    change (N_of_ascii dquote =? 125)%N with false. cbn iota.
    rewrite Hread; [done|]. cbn [need] in Hfuel. cbn [members_need] in Hfuel. lia.
Qed.

Lemma append_nil_r (a : string) : a +:+ "" = a.
Proof. induction a as [|x a IH]; [done|]. rewrite append_cons. by rewrite IH. Qed.

Lemma need_items_le (l : list json) :
  Forall (fun x => need x <= 2 * String.length (stringify x)) l ->
  items_need need l <= 2 * String.length (write_items stringify l).
Proof.
  induction 1 as [|y l Hy Hl IH]; [cbn; lia|].
  rewrite write_items_cons. cbn [items_need String.length]. rewrite length_append. lia.
Qed.

Lemma need_members_le (ms : list (string * json)) :
  Forall (fun kv => need (snd kv) <= 2 * String.length (stringify (snd kv))) ms ->
  members_need need ms <= 2 * String.length (write_members stringify ms).
Proof.
  induction 1 as [|[k y] ms Hy Hms IH]; [cbn; lia|].
  rewrite write_members_cons. cbn [members_need String.length snd] in *.
  rewrite !length_append. cbn [String.length]. rewrite length_append. lia.
Qed.

Lemma need_le (v : json) : need v <= 2 * String.length (stringify v).
Proof.
  induction v as [ |b|n|s|l IH|ms IH] using json_ind.
  - cbn; lia.
  - destruct b; cbn; lia.
  - destruct (stringify_head (JNum n)) as (c & t & -> & _). cbn [need String.length]. lia.
  - cbn; lia.
  - destruct l as [|x l]; [cbn; lia|]. inversion IH as [|? ? Hx Hl]; subst.
    apply need_items_le in Hl. cbn [need items_need stringify String.length].
    rewrite length_append. fold (items_need need l). lia.
  - destruct ms as [|[k x] ms]; [cbn; lia|]. inversion IH as [|? ? Hx Hms]; subst.
    apply need_members_le in Hms. cbn [need members_need stringify String.length snd] in *.
    rewrite !length_append. cbn [String.length]. rewrite length_append.
    fold (members_need need ms). lia.
Qed.

Lemma parse_after_stringify (v : json) : parse (stringify v) = Some v.
Proof.
  unfold parse. pose proof (need_le v) as Hle.
  rewrite <- (append_nil_r (stringify v)) at 2.
  rewrite read_value_stringify; [done|done|lia].
Qed.

Lemma stringify_not_empty (v : json) : truthy (stringify v) = true.
Proof. destruct (stringify_head v) as (c & t & -> & _). reflexivity. Qed.

End RefJSONFacts.

Lemma reference_laws : PlatformLaws reference_platform.
Proof.
  split; [apply RefJSONFacts.parse_after_stringify|apply RefJSONFacts.stringify_not_empty].
Qed.

(** * The invariant holds in every reachable world *)

Section Invariants.
Context `{P : Platform}.

Lemma length_zero_empty (s : string) : Nat.eqb (String.length s) 0 = true <-> s = "".
Proof. destruct s; simpl; split; congruence. Qed.

Lemma mount_inv ls el w : mount ls el = Normal w -> Inv w.
Proof.
  unfold mount. destruct (watched_initializer ls) as [v|]; [|discriminate].
  unfold first_render. destruct v; try discriminate.
  destruct (existsb is_null items) eqn:Hn; [discriminate|].
  intros [= <-]. split; simpl; try done.
  apply lookup_insert_eq.
Qed.

Lemma run_microtasks_idle w : microtasks w = [] -> run_microtasks w = w.
Proof. destruct w; simpl; intros ->. reflexivity. Qed.

Lemma existsb_null_app l x : existsb is_null l = false -> is_null x = false -> existsb is_null (l ++ [x]) = false.
Proof. intros Hl Hx. rewrite existsb_app, Hl. simpl. by rewrite Hx. Qed.

Lemma existsb_null_filter f l : existsb is_null l = false -> existsb is_null (List.filter f l) = false.
Proof.
  induction l as [|x l IH]; simpl; [done|].
  intros [Hx Hl]%orb_false_elim. destruct (f x); simpl; [rewrite Hx|]; auto.
Qed.

Lemma focus_inv el w : Inv w -> Inv (focus el w).
Proof. intros []. split; simpl; done. Qed.

Ltac table Hlive Hfresh :=
  let k' := fresh "k'" in let r' := fresh "r'" in let Hk' := fresh "Hk'" in
  intros k' r'; rewrite ?insert_insert_eq; rewrite ?lookup_insert;
  repeat case_decide; simplify_eq; simpl; intros Hk'; simplify_eq; simpl;
  try (left; reflexivity); try lia; try (eapply Hfresh; eassumption);
  try (pose proof (Hfresh _ _ Hk'); lia);
  try (destruct (Hlive _ _ Hk') as [?|(? & ? & ?)]; [by left|simplify_eq]);
  try (right; done); try congruence.

Ltac close_inv Hlive Hfresh :=
  split; simpl;
  try match goal with H : isLoading _ = false |- _ => rewrite H end;
  first [ done
        | solve [table Hlive Hfresh]
        | solve [intros ? [= <-]; done]
        | solve [intros ->; done]
        | solve [intros _; split; [done|]; intros _; eexists _, _; rewrite lookup_insert_eq; done]
        | idtac ].

Lemma change_query_inv q w : Inv w -> mounted w = true -> Inv (run_microtasks (change_query q w)).
Proof.
  intros [Hq Hlive Hfresh Hlast Hload Hidle Hsto Hnn] Hm.
  destruct w as [a m ls rq n c mq el]; simpl in *; subst mq m.
  unfold change_query; simpl.
  destruct (String.eqb_spec q (query a)) as [->|Hne].
  { rewrite run_microtasks_idle by done. split; simpl; done. }
  unfold run_cleanup, abort, query_effect; simpl.
  assert (Hl : (forall k r, c = Some k -> rq !! k = Some r -> awaiting (req_phase r) = false) ->
               isLoading a = false).
  { intros Hc. destruct (isLoading a); [|done]. destruct Hload as (_ & Hx); [done|].
    destruct Hx as (k & r & -> & Hk & Haw); [done|]. rewrite (Hc k r) in Haw; done. }
  destruct c as [k|]; [destruct (rq !! k) as [r|] eqn:Hk; [destruct (awaiting (req_phase r)) eqn:Haw|]|]; simpl.
  - (* the previous call is awaiting: it is aborted *)
    assert (Hkn : k < n) by eauto.
    destruct (Nat.eqb (String.length q) 0) eqn:Hq0; simpl.
    + apply length_zero_empty in Hq0 as ->.
      unfold run_microtasks, resume_aborted. simpl. rewrite lookup_insert_eq. simpl.
      close_inv Hlive Hfresh.
    + unfold run_microtasks, resume_aborted; simpl.
      rewrite lookup_insert_ne by lia. rewrite lookup_insert_eq. simpl.
      close_inv Hlive Hfresh.
  - (* the previous call had finished *)
    assert (Hl' : isLoading a = false) by (apply Hl; intros ? ? [= <-] ?; congruence).
    rewrite run_microtasks_idle by (destruct (Nat.eqb (String.length q) 0); done).
    destruct (Nat.eqb (String.length q) 0) eqn:Hq0; simpl.
    + apply length_zero_empty in Hq0 as ->. close_inv Hlive Hfresh.
    + close_inv Hlive Hfresh.
  - (* the cleanup names no call *)
    assert (Hl' : isLoading a = false) by (apply Hl; intros ? ? [= <-] ?; congruence).
    rewrite run_microtasks_idle by (destruct (Nat.eqb (String.length q) 0); done).
    destruct (Nat.eqb (String.length q) 0) eqn:Hq0; simpl.
    + apply length_zero_empty in Hq0 as ->. close_inv Hlive Hfresh.
    + close_inv Hlive Hfresh.
  - (* no cleanup: the query was empty *)
    assert (Hl' : isLoading a = false) by (apply Hl; intros ? ? [=]).
    rewrite run_microtasks_idle by (destruct (Nat.eqb (String.length q) 0); done).
    destruct (Nat.eqb (String.length q) 0) eqn:Hq0; simpl.
    + apply length_zero_empty in Hq0 as ->. close_inv Hlive Hfresh.
    + close_inv Hlive Hfresh.
Qed.

Lemma catch_finally_cases err a :
  finally_ (catch_ err a) = setIsLoading false a \/
  finally_ (catch_ err a) = setIsLoading false (setError (err_message err) a).
Proof. unfold catch_. destruct (String.eqb (err_name err) "AbortError"); auto. Qed.

#[local] Arguments fetchMovies_after_json : simpl never.

Lemma step_inv e w : Inv w -> Inv (step e w).
Proof.
  intros HI. unfold step, handle.
  destruct e; try (destruct (mounted w) eqn:Hm; [|rewrite run_microtasks_idle; [done|apply HI]]).
  - (* Input *) by apply change_query_inv.
  - (* KeyDown *)
    unfold callback. destruct (activeElement w) eqn:Hel.
    { rewrite run_microtasks_idle; [done|apply HI]. }
    destruct (String.eqb code "Enter").
    + apply change_query_inv; [by apply focus_inv|done].
    + rewrite run_microtasks_idle; [done|apply HI].
  - (* Focus *) rewrite run_microtasks_idle; [by apply focus_inv|apply HI].
  - (* SelectMovie *)
    destruct HI. rewrite run_microtasks_idle by done.
    destruct w; simpl in *; subst; split; simpl; done.
  - destruct HI. rewrite run_microtasks_idle by done.
    destruct w; simpl in *; subst; split; simpl; done.
  - destruct HI. rewrite run_microtasks_idle by done.
    destruct w; simpl in *; subst; split; simpl; try done.
    + apply lookup_insert_eq.
    + by apply existsb_null_app.
  - destruct HI. rewrite run_microtasks_idle by done.
    destruct w; simpl in *; subst; split; simpl; try done.
    + apply lookup_insert_eq.
    + by apply existsb_null_filter.
  - (* FetchSettled *)
    destruct HI as [Hq Hlive Hfresh Hlast Hload Hidle Hsto Hnn].
    destruct w as [a m ls rq n c mq el]; simpl in *; subst mq.
    unfold on_fetch_settled; simpl.
    destruct (rq !! k) as [req|] eqn:Hk; [|rewrite run_microtasks_idle by done; split; simpl; done].
    destruct (req_phase req) eqn:Hph; try (rewrite run_microtasks_idle by done; split; simpl; done).
    destruct (Hlive k req Hk) as [?|(-> & _ & ->)]; [congruence|].
    rewrite run_microtasks_idle by done.
    assert (Hqn : query a <> "") by (intros Hqn; apply Hidle in Hqn as (_ & _ & _ & ?); done).
    destruct r as [[|]|err]; simpl; unfold catch_; simpl;
      try destruct (String.eqb (err_name err) "AbortError");
      (split; simpl; [done| | | | | |done|done]); try done; try table Hlive Hfresh.
    intros Hl. split; [by apply Hload|]. intros _.
    exists k, (in_phase AwaitingJson req). by rewrite lookup_insert_eq.
  - (* JsonSettled *)
    destruct HI as [Hq Hlive Hfresh Hlast Hload Hidle Hsto Hnn].
    destruct w as [a m ls rq n c mq el]; simpl in *; subst mq.
    unfold on_json_settled; simpl.
    destruct (rq !! k) as [req|] eqn:Hk; [|rewrite run_microtasks_idle by done; split; simpl; done].
    destruct (req_phase req) eqn:Hph; try (rewrite run_microtasks_idle by done; split; simpl; done).
    destruct (Hlive k req Hk) as [?|(-> & _ & ->)]; [congruence|].
    rewrite run_microtasks_idle by done.
    assert (Hqn : query a <> "") by (intros Hqn; apply Hidle in Hqn as (_ & _ & _ & ?); done).
    assert (Hcases : fetchMovies_after_json r a = setIsLoading false a \/
                     (exists msg, fetchMovies_after_json r a = setIsLoading false (setError msg a)) \/
                     (exists s, fetchMovies_after_json r a = setIsLoading false (setError "" (setMovies s a)))).
    { unfold fetchMovies_after_json. destruct r as [data|err].
      - destruct (get_prop "Response" data) as [resp|err].
        + destruct (is_string "False" resp).
          * destruct (catch_finally_cases (Error "Movie not found") a) as [->| ->]; eauto.
          * destruct (get_prop "Search" data) as [search|err]; [eauto|].
            destruct (catch_finally_cases err a) as [->| ->]; eauto.
        + destruct (catch_finally_cases err a) as [->| ->]; eauto.
      - destruct (catch_finally_cases err a) as [->| ->]; eauto. }
    destruct Hcases as [E|[(msg & E)|(s & E)]];
      (split; simpl; rewrite ?E; simpl; [done| | | | | |done|done]); try done; try table Hlive Hfresh.
  - (* Unmount *)
    destruct HI as [Hq Hlive Hfresh Hlast Hload Hidle Hsto Hnn].
    destruct w as [a m ls rq n c mq el]; simpl in *; subst mq m.
    unfold run_cleanup, abort; simpl.
    destruct c as [k|]; [destruct (rq !! k) as [r|] eqn:Hk; [destruct (awaiting (req_phase r)) eqn:Haw|]|]; simpl.
    + unfold run_microtasks, resume_aborted. simpl. rewrite lookup_insert_eq. simpl.
      split; simpl; try done; try table Hlive Hfresh.
      all: try (intros Hx; split; [by apply Hload|done]).
      all: try (intros Hx; apply Hidle in Hx as (? & ? & ? & ?); done).
    + rewrite run_microtasks_idle by done. split; simpl; try done; try table Hlive Hfresh.
      all: try (intros Hx; split; [by apply Hload|done]).
      all: try (intros Hx; apply Hidle in Hx as (? & ? & ? & ?); done).
    + rewrite run_microtasks_idle by done. split; simpl; try done; try table Hlive Hfresh.
      all: try (intros Hx; split; [by apply Hload|done]).
      all: try (intros Hx; apply Hidle in Hx as (? & ? & ? & ?); done).
    + rewrite run_microtasks_idle by done. split; simpl; try done; try table Hlive Hfresh.
      all: try (intros Hx; split; [by apply Hload|done]).
      all: try (intros Hx; apply Hidle in Hx as (? & ? & ? & ?); done).
Qed.

Lemma reachable_inv w : reachable w -> Inv w.
Proof. induction 1; eauto using mount_inv, step_inv. Qed.

End Invariants.

(** * What one step does *)

Section Steps.
Context `{P : Platform}.

Lemma step_idle_queue e w :
  microtasks w = [] -> microtasks (handle e w) = [] -> step e w = handle e w.
Proof. intros _ Hq. unfold step. by apply run_microtasks_idle. Qed.

(** An event of a call that is not awaiting it changes nothing. *)
Lemma settled_call_ignores w k req :
  microtasks w = [] -> requests w !! k = Some req -> awaiting (req_phase req) = false ->
  (forall r, step (FetchSettled k r) w = w) /\ (forall r, step (JsonSettled k r) w = w).
Proof.
  intros Hq Hk Haw. unfold step, handle, on_fetch_settled, on_json_settled. rewrite Hk.
  destruct (req_phase req); try discriminate; split; intros r; by apply run_microtasks_idle.
Qed.

Lemma unknown_call_ignores w k :
  microtasks w = [] -> requests w !! k = None ->
  (forall r, step (FetchSettled k r) w = w) /\ (forall r, step (JsonSettled k r) w = w).
Proof.
  intros Hq Hk. unfold step, handle, on_fetch_settled, on_json_settled. rewrite Hk.
  split; intros r; by apply run_microtasks_idle.
Qed.

(** Only the call that the cleanup will abort can still change the world. *)
Lemma stale_call_ignored w k :
  Inv w -> cleanup w <> Some k ->
  (forall r, step (FetchSettled k r) w = w) /\ (forall r, step (JsonSettled k r) w = w).
Proof.
  intros HI Hc. destruct (requests w !! k) as [req|] eqn:Hk.
  - apply (settled_call_ignores w k req); [apply HI|done|].
    destruct (inv_live w HI k req Hk) as [->|(? & _)]; [done|congruence].
  - apply unknown_call_ignores; [apply HI|done].
Qed.

(** The world after the query changed to the empty string. *)
Lemma change_query_empty w :
  Inv w -> mounted w = true ->
  let w' := run_microtasks (change_query "" w) in
  query (appState w') = "" /\ issued w' = issued w /\
  dom (requests w') = dom (requests w) /\ activeElement w' = activeElement w /\
  mounted w' = true /\ watched (appState w') = watched (appState w) /\
  selectedId (appState w') = selectedId (appState w) /\ localStorage w' = localStorage w.
Proof.
  intros [Hq Hlive Hfresh Hlast Hload Hidle Hsto Hnn] Hm. cbv zeta.
  destruct w as [a m ls rq n c mq el]; simpl in *; subst mq m.
  unfold change_query; simpl.
  destruct (query a) as [|c0 q0] eqn:Eq; simpl.
  { done. }
  unfold run_cleanup, abort, query_effect; simpl.
  destruct c as [k|]; [destruct (rq !! k) as [r|] eqn:Hk; [destruct (awaiting (req_phase r)) eqn:Haw|]|]; simpl;
    try done; try (rewrite run_microtasks_idle by done; simpl; done).
  unfold run_microtasks, resume_aborted. simpl. rewrite lookup_insert_eq. simpl.
  repeat split; try done.
  rewrite insert_insert_eq. by apply dom_insert_lookup_L.
Qed.

(** The world after the query changed to a new text that is not empty:
    one more call, awaiting its [fetch]; the detail view is closed. *)
Lemma change_query_new w q :
  Inv w -> mounted w = true -> q <> "" -> q <> query (appState w) ->
  let w' := run_microtasks (change_query q w) in
  query (appState w') = q /\ issued w' = S (issued w) /\ cleanup w' = Some (issued w) /\
  requests w' !! issued w = Some {| req_url := request_url q; req_phase := AwaitingFetch |} /\
  mounted w' = true /\ error (appState w') = "" /\ selectedId (appState w') = None /\
  movies (appState w') = movies (appState w) /\ watched (appState w') = watched (appState w) /\
  activeElement w' = activeElement w /\ localStorage w' = localStorage w.
Proof.
  intros [Hq Hlive Hfresh Hlast Hload Hidle Hsto Hnn] Hm Hne0 Hne. cbv zeta.
  destruct w as [a m ls rq n c mq el]; simpl in *; subst mq m.
  unfold change_query; simpl.
  destruct (String.eqb_spec q (query a)) as [E|_]; [done|].
  unfold run_cleanup, abort, query_effect.
  cbn [set_state appState mounted query setQuery cleanup requests].
  assert (Hq0 : Nat.eqb (String.length q) 0 = false).
  { destruct q; [done|reflexivity]. }
  destruct c as [k|]; [destruct (rq !! k) as [r|] eqn:Hk; [destruct (awaiting (req_phase r)) eqn:Haw|]|];
    cbn [set_state set_request set_microtasks appState mounted query setQuery cleanup requests microtasks issued];
    rewrite Hq0; simpl;
    try (rewrite lookup_insert_eq; done).
  assert (Hkn : k < n) by eauto.
  unfold run_microtasks, resume_aborted. simpl.
  rewrite lookup_insert_ne by lia. rewrite lookup_insert_eq. simpl.
  rewrite lookup_insert_ne by lia. rewrite lookup_insert_eq. done.
Qed.

Lemma set_state_same w : set_state (fun a => a) w = w.
Proof. destruct w as [a [] ls rq n c mq el]; reflexivity. Qed.

(** The [fetch] promise of an awaiting call resolves with an [ok] response. *)
Lemma step_fetch_ok w k req :
  microtasks w = [] -> requests w !! k = Some req -> req_phase req = AwaitingFetch ->
  step (FetchSettled k (Normal true)) w = set_request k (in_phase AwaitingJson req) w.
Proof.
  intros Hq Hk Hph. unfold step, handle, on_fetch_settled. rewrite Hk, Hph.
  cbn [fetchMovies_after_fetch negb fst snd]. rewrite (set_state_same w).
  by apply run_microtasks_idle.
Qed.

(** It rejects with [err], or resolves with a response that is not [ok]. *)
Lemma step_fetch_fails w k req r :
  microtasks w = [] -> requests w !! k = Some req -> req_phase req = AwaitingFetch ->
  r <> Normal true ->
  step (FetchSettled k r) w =
    set_request k (in_phase Settled req)
      (set_state (fun a => finally_ (catch_
         match r with
         | Throw err => err
         | Normal _ => Error "Something went wrong while fetching movies"
         end a)) w).
Proof.
  intros Hq Hk Hph Hr. unfold step, handle, on_fetch_settled. rewrite Hk, Hph.
  destruct r as [[|]|err]; [done|..]; cbn [fetchMovies_after_fetch negb fst snd];
    by apply run_microtasks_idle.
Qed.

(** The [response.json()] promise of an awaiting call settles. *)
Lemma step_json w k req r :
  microtasks w = [] -> requests w !! k = Some req -> req_phase req = AwaitingJson ->
  step (JsonSettled k r) w =
    set_request k (in_phase Settled req) (set_state (fetchMovies_after_json r) w).
Proof.
  intros Hq Hk Hph. unfold step, handle, on_json_settled. rewrite Hk, Hph.
  by apply run_microtasks_idle.
Qed.

(** [catch] and [finally] leave everything but [error] and [isLoading]. *)
Lemma catch_finally_error err a :
  error (finally_ (catch_ err a)) =
    if String.eqb (err_name err) "AbortError" then error a else err_message err.
Proof. unfold finally_, catch_. by destruct (String.eqb (err_name err) "AbortError"). Qed.

Lemma catch_finally_rest err a :
  isLoading (finally_ (catch_ err a)) = false /\
  movies (finally_ (catch_ err a)) = movies a /\
  query (finally_ (catch_ err a)) = query a /\
  selectedId (finally_ (catch_ err a)) = selectedId a /\
  watched (finally_ (catch_ err a)) = watched a.
Proof. unfold finally_, catch_. by destruct (String.eqb (err_name err) "AbortError"). Qed.

(** A query change leaves no message: it keeps the old one only when
    nothing changes at all. *)
Lemma change_query_error w q :
  Inv w -> mounted w = true ->
  run_microtasks (change_query q w) = w \/
  error (appState (run_microtasks (change_query q w))) = "".
Proof.
  intros HI Hm. destruct (String.eqb_spec q (query (appState w))) as [->|Hne].
  - left. unfold change_query. rewrite String.eqb_refl. apply run_microtasks_idle, HI.
  - right. destruct (String.eqb_spec q "") as [->|Hq].
    + pose proof (change_query_inv "" w HI Hm) as HI'.
      destruct (change_query_empty w HI Hm) as (Hq' & _).
      by apply (inv_idle _ HI') in Hq' as (_ & ? & _).
    + by destruct (change_query_new w q HI Hm Hq Hne) as (_ & _ & _ & _ & _ & ? & _).
Qed.

(** Resuming aborted calls never touches [error]. *)
Lemma resume_aborted_error w k :
  error (appState (resume_aborted w k)) = error (appState w).
Proof.
  unfold resume_aborted. destruct (requests w !! k); [|done].
  cbn. by destruct (mounted w).
Qed.

Lemma run_microtasks_error w :
  error (appState (run_microtasks w)) = error (appState w).
Proof.
  unfold run_microtasks. cbn [appState set_microtasks].
  generalize (microtasks w). intros l. revert w.
  induction l as [|k l IH]; intros w; [done|].
  cbn [foldl]. rewrite IH. apply resume_aborted_error.
Qed.

Lemma abort_app_state w k : appState (abort k w) = appState w.
Proof.
  unfold abort. destruct (requests w !! k) as [r|]; [|done]. by destruct (awaiting (req_phase r)).
Qed.

Lemma step_select w id :
  microtasks w = [] -> mounted w = true ->
  step (SelectMovie id) w = set_state (handleSelectMovie id) w.
Proof. intros Hq Hm. unfold step, handle. rewrite Hm. by apply run_microtasks_idle. Qed.

Lemma step_close w :
  microtasks w = [] -> mounted w = true ->
  step CloseMovie w = set_state handleCloseMovie w.
Proof. intros Hq Hm. unfold step, handle. rewrite Hm. by apply run_microtasks_idle. Qed.

Lemma step_add w movie :
  microtasks w = [] -> mounted w = true ->
  step (AddWatched movie) w = persist (set_state (handleAddWatched (JObj movie)) w).
Proof. intros Hq Hm. unfold step, handle. rewrite Hm. by apply run_microtasks_idle. Qed.

Lemma step_delete w id :
  microtasks w = [] -> mounted w = true ->
  step (DeleteWatched id) w = persist (set_state (handleDeleteWatched id) w).
Proof. intros Hq Hm. unfold step, handle. rewrite Hm. by apply run_microtasks_idle. Qed.

Lemma step_add_watched w movie :
  microtasks w = [] -> mounted w = true ->
  watched (appState (step (AddWatched movie) w)) = watched (appState w) ++ [JObj movie] /\
  mounted (step (AddWatched movie) w) = true.
Proof. intros Hq Hm. rewrite step_add by done. cbn. by rewrite Hm. Qed.

Lemma count_id_app id l1 l2 : count_id id (l1 ++ l2) = count_id id l1 + count_id id l2.
Proof. unfold count_id. by rewrite List.filter_app, length_app. Qed.

Lemma mounted_world_watched ls l el : watched (appState (mounted_world ls l el)) = l.
Proof. reflexivity. Qed.

End Steps.

(** * The claims *)

Section Claims.
Context `{P : Platform}.

(** C1. A response of a superseded call never changes the world: every
    settled promise of a call that is not the last one issued is ignored.
    In particular, when [q1] is typed, then [q2] before the first response
    arrives, the second call is the one whose response is applied, and the
    response to [q1] arriving afterwards leaves the world as the response to
    [q2] made it. *)
Theorem stale_response_never_applies (w : World) :
  reachable w ->
  (forall k, S k < issued w ->
     (forall r, step (FetchSettled k r) w = w) /\
     (forall r, step (JsonSettled k r) w = w)) /\
  (mounted w = true ->
   forall (q1 q2 : string) (data : json) (r1 : completion bool) (r1' : completion json),
     q1 <> "" -> q2 <> "" -> q1 <> query (appState w) -> q2 <> q1 ->
     let k1 := issued w in
     let k2 := S k1 in
     let w2 := run [Input q1; Input q2] w in
     let w4 := run [FetchSettled k2 (Normal true); JsonSettled k2 (Normal data)] w2 in
     requests w2 !! k2 = Some {| req_url := request_url q2; req_phase := AwaitingFetch |} /\
     appState w4 = fetchMovies_after_json (Normal data) (appState w2) /\
     run [FetchSettled k1 r1; JsonSettled k1 r1'] w4 = w4).
Proof.
  intros Hr. pose proof (reachable_inv w Hr) as HI. split.
  - intros k Hk. apply stale_call_ignored; [done|].
    intros Hc. apply (inv_latest w HI) in Hc. lia.
  - intros Hm q1 q2 data r1 r1' Hq1 Hq2 Hne1 Hne2. cbv zeta.
    cbn [run foldl].
    pose proof (step_inv (Input q1) w HI) as HI1.
    assert (E1 : step (Input q1) w = run_microtasks (change_query q1 w)).
    { unfold step, handle. by rewrite Hm. }
    destruct (change_query_new w q1 HI Hm Hq1 Hne1) as (Hqq1 & Hi1 & _ & _ & Hm1 & _).
    rewrite <- E1 in Hqq1, Hi1, Hm1.
    set (w1 := step (Input q1) w) in *.
    pose proof (step_inv (Input q2) w1 HI1) as HI2.
    assert (E2 : step (Input q2) w1 = run_microtasks (change_query q2 w1)).
    { unfold step, handle. by rewrite Hm1. }
    destruct (change_query_new w1 q2 HI1 Hm1 Hq2) as (_ & Hi2 & Hc2 & Hk2 & Hm2 & _);
      [congruence|].
    rewrite <- E2 in Hi2, Hc2, Hk2, Hm2. rewrite Hi1 in Hc2, Hk2.
    set (w2 := step (Input q2) w1) in *.
    split; [done|].
    rewrite (step_fetch_ok w2 _ _ (inv_queue w2 HI2) Hk2 eq_refl).
    pose proof (step_inv (FetchSettled (S (issued w)) (Normal true)) w2 HI2) as HI3.
    rewrite (step_fetch_ok w2 _ _ (inv_queue w2 HI2) Hk2 eq_refl) in HI3.
    set (w3 := set_request _ _ w2) in *.
    assert (Hk3 : requests w3 !! S (issued w) =
                  Some (in_phase AwaitingJson {| req_url := request_url q2; req_phase := AwaitingFetch |})).
    { subst w3. cbn [requests set_request]. apply lookup_insert_eq. }
    pose proof (step_inv (JsonSettled (S (issued w)) (Normal data)) w3 HI3) as HI4.
    rewrite (step_json w3 _ _ _ (inv_queue w3 HI3) Hk3 eq_refl) in HI4 |- *.
    set (w4 := set_request _ _ (set_state _ w3)) in *.
    split.
    + subst w4 w3. cbn [appState set_request set_state mounted]. by rewrite Hm2.
    + assert (Hc4 : cleanup w4 <> Some (issued w)).
      { subst w4 w3. cbn [cleanup set_request set_state]. rewrite Hc2. intros [= ?]. lia. }
      destruct (stale_call_ignored w4 (issued w) HI4 Hc4) as [Hf Hj].
      by rewrite Hf, Hj.
Qed.

(** C2. When the query becomes empty the result list becomes empty, the
    recorded error is cleared, nothing is loading, and no request is
    issued or left in flight. *)
Theorem empty_query_resets_without_request (w : World) :
  reachable w -> mounted w = true ->
  let w' := step (Input "") w in
  query (appState w') = "" /\
  movies (appState w') = Some (JArr []) /\
  error (appState w') = "" /\
  isLoading (appState w') = false /\
  issued w' = issued w /\
  dom (requests w') = dom (requests w) /\
  (forall k r, requests w' !! k = Some r -> req_phase r = Settled).
Proof.
  intros Hr Hm. cbv zeta. pose proof (reachable_inv w Hr) as HI.
  pose proof (step_inv (Input "") w HI) as HI'.
  assert (E : step (Input "") w = run_microtasks (change_query "" w)).
  { unfold step, handle. by rewrite Hm. }
  destruct (change_query_empty w HI Hm) as (Hq & Hi & Hd & _).
  rewrite <- E in Hq, Hi, Hd.
  destruct (inv_idle _ HI' Hq) as (Hmv & He & Hl & Hc).
  repeat split; try done.
  intros k r Hk. destruct (inv_live _ HI' k r Hk) as [?|(? & _)]; [done|congruence].
Qed.

(** C3, as the code has it. [handleAddWatched] appends the movie whatever
    the list holds: each call adds one record, so adding the same movie
    twice leaves two more records with its identifier than before. *)
Theorem add_watched_appends (w : World) (movie : list (string * json)) (id : string) :
  reachable w -> mounted w = true ->
  prop_is "imdbID" id (JObj movie) = true ->
  let w1 := step (AddWatched movie) w in
  let w2 := step (AddWatched movie) w1 in
  watched (appState w1) = watched (appState w) ++ [JObj movie] /\
  watched (appState w2) = watched (appState w) ++ [JObj movie; JObj movie] /\
  count_id id (watched (appState w2)) = 2 + count_id id (watched (appState w)).
Proof.
  intros Hr Hm Hid. cbv zeta. pose proof (reachable_inv w Hr) as HI.
  pose proof (step_inv (AddWatched movie) w HI) as HI1.
  destruct (step_add_watched w movie (inv_queue w HI) Hm) as [H1 Hm1].
  destruct (step_add_watched _ movie (inv_queue _ HI1) Hm1) as [H2 _].
  rewrite H1 in H2. rewrite <- List.app_assoc in H2. cbn [List.app] in H2.
  split; [done|]. split; [done|].
  rewrite H2, count_id_app. unfold count_id at 2. cbn [List.filter]. rewrite Hid. cbn. lia.
Qed.

(** C4, as the code has it. The initializer of [watched] answers the empty
    list when the key is absent or holds the empty string, and the parsed
    value when the text is JSON. When the text is not JSON the
    [SyntaxError] of [JSON.parse] leaves the initializer: mounting fails,
    there is no fallback to the empty list. *)
Theorem watched_initializer_cases (ls : gmap string string) (el : Element) :
  (ls !! "watched" = None \/ ls !! "watched" = Some "" ->
     watched_initializer ls = Normal (JArr []) /\
     mount ls el = Normal (mounted_world ls [] el)) /\
  (forall s v, ls !! "watched" = Some s -> s <> "" -> JSON_parse s = Some v ->
     watched_initializer ls = Normal v) /\
  (forall s, ls !! "watched" = Some s -> s <> "" -> JSON_parse s = None ->
     exists e, err_name e = "SyntaxError" /\
       watched_initializer ls = Throw e /\ mount ls el = Throw e).
Proof.
  split; [|split].
  - intros Hk. assert (E : watched_initializer ls = Normal (JArr [])).
    { unfold watched_initializer. by destruct Hk as [-> | ->]. }
    split; [done|]. unfold mount. by rewrite E.
  - intros s v Hk Hs Hp. unfold watched_initializer. rewrite Hk.
    destruct s; [done|]. cbn [truthy]. by rewrite Hp.
  - intros s Hk Hs Hp. eexists. split; [|split].
    2: { unfold watched_initializer. rewrite Hk. destruct s; [done|]. cbn [truthy]. by rewrite Hp. }
    + reflexivity.
    + unfold mount, watched_initializer. rewrite Hk. destruct s; [done|]. cbn [truthy]. by rewrite Hp.
Qed.

(** C5. A cancelled call never writes the error message: resuming an
    aborted call leaves [error] as it is, and so does unmounting. An event
    after which [error] holds a new message is the settling of a promise
    of the one call that is still awaiting, hence not cancelled. *)
Theorem cancellation_never_sets_error (w : World) :
  reachable w ->
  (forall k, error (appState (resume_aborted w k)) = error (appState w)) /\
  error (appState (step Unmount w)) = error (appState w) /\
  (forall e : Event,
     error (appState (step e w)) <> error (appState w) ->
     truthy (error (appState (step e w))) = true ->
     exists k req, requests w !! k = Some req /\ awaiting (req_phase req) = true /\
       cleanup w = Some k /\
       ((exists r, e = FetchSettled k r) \/ (exists r, e = JsonSettled k r))).
Proof.
  intros Hr. pose proof (reachable_inv w Hr) as HI.
  assert (Hun : error (appState (step Unmount w)) = error (appState w)).
  { unfold step. rewrite run_microtasks_error. unfold handle.
    destruct (mounted w); [|done]. cbn [appState set_mounted set_cleanup].
    unfold run_cleanup. destruct (cleanup w); [|done]. by rewrite abort_app_state. }
  split; [intros k; apply resume_aborted_error|]. split; [done|].
  intros e Hne Htr.
  assert (Hsame : step e w = w -> False) by (intros E; by rewrite E in Hne).
  assert (Hq : forall q, run_microtasks (change_query q w) = step e w -> mounted w = true -> False).
  { intros q E Hm. destruct (change_query_error w q HI Hm) as [E'|E'].
    - apply Hsame. by rewrite <- E.
    - rewrite E in E'. by rewrite E' in Htr. }
  destruct e; try (exfalso; unfold step, handle in *; destruct (mounted w) eqn:Hm;
                   [|apply Hsame; by rewrite run_microtasks_idle by apply HI]).
  - by apply (Hq q).
  - unfold callback in *. destruct (activeElement w) eqn:Hel.
    { apply Hsame. by rewrite run_microtasks_idle by apply HI. }
    destruct (String.eqb code "Enter").
    + pose proof (focus_inv SearchInput w HI) as HIf.
      destruct (change_query_error (focus SearchInput w) "" HIf Hm) as [E'|E'].
      * apply Hne. by rewrite E'.
      * by rewrite E' in Htr.
    + apply Hsame. by rewrite run_microtasks_idle by apply HI.
  - exfalso. apply Hne. unfold step, handle. by rewrite run_microtasks_idle by apply HI.
  - apply Hne. rewrite run_microtasks_idle by apply HI. by cbn; rewrite Hm.
  - apply Hne. rewrite run_microtasks_idle by apply HI. by cbn; rewrite Hm.
  - apply Hne. rewrite run_microtasks_idle by apply HI. by cbn; rewrite Hm.
  - apply Hne. rewrite run_microtasks_idle by apply HI. by cbn; rewrite Hm.
  - destruct (requests w !! k) as [req|] eqn:Hk.
    + destruct (awaiting (req_phase req)) eqn:Haw.
      * exists k, req. destruct (inv_live w HI k req Hk) as [Hs|(Hc & _)].
        { rewrite Hs in Haw. done. }
        eauto 10.
      * exfalso. apply Hsame. by apply (settled_call_ignores w k req (inv_queue w HI) Hk Haw).
    + exfalso. apply Hsame. by apply (unknown_call_ignores w k (inv_queue w HI) Hk).
  - destruct (requests w !! k) as [req|] eqn:Hk.
    + destruct (awaiting (req_phase req)) eqn:Haw.
      * exists k, req. destruct (inv_live w HI k req Hk) as [Hs|(Hc & _)].
        { rewrite Hs in Haw. done. }
        eauto 10.
      * exfalso. apply Hsame. by apply (settled_call_ignores w k req (inv_queue w HI) Hk Haw).
    + exfalso. apply Hsame. by apply (unknown_call_ignores w k (inv_queue w HI) Hk).
  - by apply Hne.
Qed.

(** C6. A call that runs to its end: a response that is not [ok] records
    "Something went wrong while fetching movies"; an [ok] response whose
    body has [Response === "False"] records "Movie not found"; any other
    [ok] response stores [data.Search] as the movies and clears the error.
    Each of them ends the loading. *)
Theorem completed_fetch_outcomes (w : World) (k : nat) (req : Request) :
  reachable w -> mounted w = true ->
  requests w !! k = Some req -> req_phase req = AwaitingFetch ->
  (let a' := appState (step (FetchSettled k (Normal false)) w) in
   error a' = "Something went wrong while fetching movies" /\
   isLoading a' = false /\ movies a' = movies (appState w)) /\
  (forall data : json,
     prop_is "Response" "False" data = true ->
     let a' := appState (run [FetchSettled k (Normal true); JsonSettled k (Normal data)] w) in
     error a' = "Movie not found" /\ isLoading a' = false /\ movies a' = movies (appState w)) /\
  (forall (data : json) (search : option json),
     prop_is "Response" "False" data = false ->
     get_prop "Search" data = Normal search ->
     let a' := appState (run [FetchSettled k (Normal true); JsonSettled k (Normal data)] w) in
     movies a' = search /\ error a' = "" /\ isLoading a' = false).
Proof.
  intros Hr Hm Hk Hph. pose proof (reachable_inv w Hr) as HI.
  pose proof (inv_queue w HI) as Hq.
  assert (Hjson : forall data,
    appState (run [FetchSettled k (Normal true); JsonSettled k (Normal data)] w)
    = fetchMovies_after_json (Normal data) (appState w)).
  { intros data. cbn [run foldl]. rewrite (step_fetch_ok w k req Hq Hk Hph).
    rewrite (step_json _ k (in_phase AwaitingJson req)); [|done|apply lookup_insert_eq|done].
    cbn. by rewrite Hm. }
  split; [|split].
  - cbv zeta. rewrite (step_fetch_fails w k req _ Hq Hk Hph) by done.
    cbn. rewrite Hm. done.
  - intros data Hf. cbv zeta. rewrite Hjson. unfold fetchMovies_after_json, prop_is in *.
    destruct (get_prop "Response" data) as [resp|]; [|done]. rewrite Hf. done.
  - intros data search Hf Hs. cbv zeta. rewrite Hjson. unfold fetchMovies_after_json, prop_is in *.
    rewrite Hs. destruct (get_prop "Response" data) as [resp|] eqn:E.
    + rewrite Hf. done.
    + destruct data; discriminate.
Qed.

(** C7. What [localStorage] holds under "watched" always reads back as the
    watched list: mounting again finds the same list. After two movies
    are added, a fresh mount starts with the old list followed by the two
    movies in the order they were added. *)
Theorem watched_survives_reload `{!PlatformLaws P} (w : World) (el : Element) :
  reachable w ->
  watched_initializer (localStorage w) = Normal (JArr (watched (appState w))) /\
  mount (localStorage w) el =
    Normal (mounted_world (localStorage w) (watched (appState w)) el) /\
  (mounted w = true ->
   forall r1 r2 : list (string * json),
     let w2 := run [AddWatched r1; AddWatched r2] w in
     exists w', mount (localStorage w2) el = Normal w' /\
       watched (appState w') = watched (appState w) ++ [JObj r1; JObj r2]).
Proof.
  assert (Hgen : forall w0, reachable w0 ->
    watched_initializer (localStorage w0) = Normal (JArr (watched (appState w0))) /\
    mount (localStorage w0) el =
      Normal (mounted_world (localStorage w0) (watched (appState w0)) el)).
  { intros w0 Hr0. pose proof (reachable_inv w0 Hr0) as HI.
    assert (E : watched_initializer (localStorage w0) = Normal (JArr (watched (appState w0)))).
    { unfold watched_initializer. rewrite (inv_storage w0 HI).
      rewrite stringify_truthy, parse_stringify. done. }
    split; [done|]. unfold mount. rewrite E. cbn [first_render].
    by rewrite (inv_no_null w0 HI). }
  intros Hr. destruct (Hgen w Hr) as [H1 H2]. split; [done|]. split; [done|].
  intros Hm r1 r2. cbv zeta. cbn [run foldl].
  pose proof (reachable_inv w Hr) as HI.
  pose proof (step_inv (AddWatched r1) w HI) as HI1.
  destruct (step_add_watched w r1 (inv_queue w HI) Hm) as [Ha1 Hm1].
  destruct (step_add_watched _ r2 (inv_queue _ HI1) Hm1) as [Ha2 _].
  destruct (Hgen (step (AddWatched r2) (step (AddWatched r1) w))) as [_ Hmount].
  { by do 2 apply reachable_step. }
  eexists. split; [exact Hmount|].
  rewrite mounted_world_watched, Ha2, Ha1. by rewrite <- List.app_assoc.
Qed.

(** C8, as the code has it. In every reachable world exactly one of the
    three conditions of the first [Box] holds. With an empty query it is
    the one of the movie list, which is rendered with no movies: the
    loader and the error message are not shown. *)
Theorem one_view_at_a_time (w : World) :
  reachable w ->
  let a := appState w in
  exactly_one (showLoader a) (showResults a) (showError a) = true /\
  (query a = "" ->
     showLoader a = false /\ showResults a = true /\ showError a = false /\
     movies a = Some (JArr [])).
Proof.
  intros Hr. cbv zeta. pose proof (reachable_inv w Hr) as HI.
  unfold showLoader, showResults, showError. split.
  - destruct (isLoading (appState w)) eqn:Hl.
    + destruct (inv_loading w HI Hl) as [-> _]. reflexivity.
    + by destruct (truthy (error (appState w))).
  - intros Hq. destruct (inv_idle w HI Hq) as (-> & -> & -> & _). done.
Qed.

(** C9. Selecting the movie whose details are open closes them; selecting
    any other movie, or selecting while nothing is open, opens it. Hence
    selecting the same movie twice from the closed state ends closed, and
    closing when nothing is open changes nothing. *)
Theorem select_toggles_and_close_is_noop (w : World) (id : string) :
  reachable w -> mounted w = true ->
  let sel := fun w => selectedId (appState w) in
  (sel w = Some id -> sel (step (SelectMovie id) w) = None) /\
  (sel w <> Some id -> sel (step (SelectMovie id) w) = Some id) /\
  (sel w = None -> sel (run [SelectMovie id; SelectMovie id] w) = None) /\
  sel (step CloseMovie w) = None /\
  (sel w = None -> step CloseMovie w = w).
Proof.
  intros Hr Hm. cbv zeta. pose proof (reachable_inv w Hr) as HI.
  pose proof (inv_queue w HI) as Hq.
  pose proof (step_inv (SelectMovie id) w HI) as HI1.
  cbn [run foldl].
  assert (Hm1 : mounted (step (SelectMovie id) w) = true).
  { rewrite step_select by done. done. }
  rewrite (step_select _ id (inv_queue _ HI1) Hm1).
  rewrite !step_select, step_close by done.
  destruct w as [a m ls rq n c mq el]; cbn in *; subst m mq.
  clear HI HI1 Hm1 Hr. destruct a as [mv il er qu sel wa]; cbn.
  repeat split.
  - intros ->. by rewrite String.eqb_refl.
  - intros Hne. destruct sel as [cur|]; [|done].
    destruct (String.eqb_spec id cur); [congruence|done].
  - intros ->. by rewrite String.eqb_refl.
  - by intros ->.
Qed.

(** C10. A keydown with code "Enter" while the search input is not the
    active element focuses the input and sets the query to the empty
    string, which resets the search (no movies, no error, nothing loading,
    no request issued). While the input is the active element a keydown
    changes nothing. *)
Theorem enter_outside_input_clears_query (w : World) :
  reachable w -> mounted w = true ->
  (activeElement w = Elsewhere ->
   let w' := step (KeyDown "Enter") w in
   query (appState w') = "" /\ activeElement w' = SearchInput /\
   movies (appState w') = Some (JArr []) /\ error (appState w') = "" /\
   isLoading (appState w') = false /\ issued w' = issued w) /\
  (activeElement w = SearchInput -> forall code, step (KeyDown code) w = w).
Proof.
  intros Hr Hm. pose proof (reachable_inv w Hr) as HI. split.
  - intros Hel. cbv zeta.
    pose proof (step_inv (KeyDown "Enter") w HI) as HI'.
    assert (E : step (KeyDown "Enter") w = run_microtasks (change_query "" (focus SearchInput w))).
    { unfold step, handle, callback. by rewrite Hm, Hel. }
    rewrite E in *.
    destruct (change_query_empty (focus SearchInput w) (focus_inv _ _ HI) Hm)
      as (Hq & Hi & _ & Ha & _).
    destruct (inv_idle _ HI' Hq) as (Hmv & He & Hl & _).
    done.
  - intros Hel code. unfold step, handle, callback. rewrite Hm, Hel.
    apply run_microtasks_idle, HI.
Qed.

End Claims.

(** * The theorems at work on the reference platform *)

Section Examples.
#[local] Existing Instance reference_platform.

Lemma demo_reachable : reachable demo_world.
Proof. apply (reachable_mount ∅ Elsewhere). reflexivity. Defined.

Lemma stale_response_never_applies_witness :
  let w2 := run [Input "batman"; Input "joker"] demo_world in
  let w4 := run [FetchSettled 1 (Normal true); JsonSettled 1 (Normal joker_body)] w2 in
  appState w4 = fetchMovies_after_json (Normal joker_body) (appState w2) /\
  run [FetchSettled 0 (Normal true); JsonSettled 0 (Normal batman_body)] w4 = w4.
Proof.
  destruct (stale_response_never_applies demo_world demo_reachable) as [_ H].
  destruct (H eq_refl "batman" "joker" joker_body (Normal true) (Normal batman_body))
    as (_ & H1 & H2); [discriminate..|].
  split; assumption.
Defined.

Lemma empty_query_resets_without_request_witness :
  let w := step (Input "batman") demo_world in
  let w' := step (Input "") w in
  query (appState w') = "" /\
  movies (appState w') = Some (JArr []) /\
  error (appState w') = "" /\
  isLoading (appState w') = false /\
  issued w' = issued w /\
  dom (requests w') = dom (requests w) /\
  (forall k r, requests w' !! k = Some r -> req_phase r = Settled).
Proof.
  apply (empty_query_resets_without_request (step (Input "batman") demo_world)).
  - apply reachable_step, demo_reachable.
  - reflexivity.
Defined.

(** C3 fails as stated: the same movie added twice is in the list twice. *)
Lemma add_watched_twice_duplicates :
  count_id "tt1"
    (watched (appState (run [AddWatched batman_record; AddWatched batman_record] demo_world))) = 2 /\
  count_id "tt1"
    (watched (appState (run [AddWatched batman_record; AddWatched batman_record] demo_world))) <> 1.
Proof. split; [reflexivity|discriminate]. Qed.

Lemma add_watched_appends_witness :
  let w2 := step (AddWatched batman_record) (step (AddWatched batman_record) demo_world) in
  watched (appState w2) = watched (appState demo_world) ++ [JObj batman_record; JObj batman_record] /\
  count_id "tt1" (watched (appState w2)) = 2 + count_id "tt1" (watched (appState demo_world)).
Proof.
  destruct (add_watched_appends demo_world batman_record "tt1" demo_reachable eq_refl eq_refl)
    as (_ & H2 & H3).
  split; assumption.
Defined.

(** C4 fails as stated: text that is not JSON under "watched" makes the
    initializer throw, so [App] does not mount; the list is not empty. *)
Lemma corrupt_storage_fails_mount :
  mount (<["watched" := "{"]> ∅) Elsewhere = Throw (SyntaxError "Unexpected token in JSON") /\
  watched_initializer (<["watched" := "{"]> ∅) <> Normal (JArr []).
Proof. split; [reflexivity|discriminate]. Qed.

Lemma watched_initializer_cases_witness :
  (watched_initializer ∅ = Normal (JArr []) /\
   mount ∅ Elsewhere = Normal (mounted_world ∅ [] Elsewhere)) /\
  watched_initializer (<["watched" := "[]"]> ∅) = Normal (JArr []) /\
  (exists e, err_name e = "SyntaxError" /\
     watched_initializer (<["watched" := "{"]> ∅) = Throw e /\
     mount (<["watched" := "{"]> ∅) Elsewhere = Throw e).
Proof.
  split; [|split].
  - apply (watched_initializer_cases ∅ Elsewhere). left. reflexivity.
  - apply (watched_initializer_cases (<["watched" := "[]"]> ∅) Elsewhere) with (s := "[]");
      [reflexivity|discriminate|reflexivity].
  - apply (watched_initializer_cases (<["watched" := "{"]> ∅) Elsewhere) with (s := "{");
      [reflexivity|discriminate|reflexivity].
Defined.

Lemma cancellation_never_sets_error_witness :
  let w := step (Input "batman") demo_world in
  (forall k, error (appState (resume_aborted w k)) = error (appState w)) /\
  error (appState (step Unmount w)) = error (appState w) /\
  error (appState (step (Input "joker") w)) = error (appState w).
Proof.
  destruct (cancellation_never_sets_error (step (Input "batman") demo_world)) as (H1 & H2 & _).
  - apply reachable_step, demo_reachable.
  - split; [exact H1|]. split; [exact H2|reflexivity].
Defined.

Lemma completed_fetch_outcomes_witness :
  let w := step (Input "batman") demo_world in
  error (appState (step (FetchSettled 0 (Normal false)) w))
    = "Something went wrong while fetching movies" /\
  error (appState (run [FetchSettled 0 (Normal true); JsonSettled 0 (Normal not_found_body)] w))
    = "Movie not found" /\
  movies (appState (run [FetchSettled 0 (Normal true); JsonSettled 0 (Normal batman_body)] w))
    = Some (JArr [JObj [("Title", JStr "Batman"); ("imdbID", JStr "tt1")]]).
Proof.
  destruct (completed_fetch_outcomes (step (Input "batman") demo_world) 0
              {| req_url := request_url "batman"; req_phase := AwaitingFetch |})
    as (H1 & H2 & H3).
  - apply reachable_step, demo_reachable.
  - reflexivity.
  - reflexivity.
  - reflexivity.
  - split; [apply H1|]. split.
    + apply (H2 not_found_body). reflexivity.
    + apply (H3 batman_body); reflexivity.
Defined.

Lemma watched_survives_reload_witness :
  let w2 := run [AddWatched batman_record; AddWatched joker_record] demo_world in
  exists w', mount (localStorage w2) Elsewhere = Normal w' /\
    watched (appState w') = [JObj batman_record; JObj joker_record].
Proof.
  destruct (watched_survives_reload (PlatformLaws0 := reference_laws) demo_world Elsewhere demo_reachable)
    as (_ & _ & H).
  exact (H eq_refl batman_record joker_record).
Defined.

(** C8 fails as stated: with an empty query the movie list is rendered. *)
Lemma empty_query_shows_results :
  reachable demo_world /\ query (appState demo_world) = "" /\
  showResults (appState demo_world) = true.
Proof. split; [exact demo_reachable|]. split; reflexivity. Qed.

Lemma one_view_at_a_time_witness :
  let a := appState (step (Input "batman") demo_world) in
  exactly_one (showLoader a) (showResults a) (showError a) = true.
Proof.
  apply (one_view_at_a_time (step (Input "batman") demo_world)).
  apply reachable_step, demo_reachable.
Defined.

Lemma select_toggles_and_close_is_noop_witness :
  selectedId (appState (run [SelectMovie "tt1"; SelectMovie "tt1"] demo_world)) = None /\
  step CloseMovie demo_world = demo_world.
Proof.
  destruct (select_toggles_and_close_is_noop demo_world "tt1" demo_reachable eq_refl)
    as (_ & _ & H3 & _ & H5).
  split; [apply H3|apply H5]; reflexivity.
Defined.

Lemma enter_outside_input_clears_query_witness :
  let w := step (Input "batman") demo_world in
  let w' := step (KeyDown "Enter") w in
  query (appState w') = "" /\ activeElement w' = SearchInput /\
  movies (appState w') = Some (JArr []) /\ error (appState w') = "" /\
  isLoading (appState w') = false /\ issued w' = issued w.
Proof.
  destruct (enter_outside_input_clears_query (step (Input "batman") demo_world)) as [H _].
  - apply reachable_step, demo_reachable.
  - reflexivity.
  - apply H. reflexivity.
Defined.

End Examples.

(** * Further properties of the component *)

Section Frames.
Context `{P : Platform}.

(** What the microtasks leave alone. *)
Lemma run_microtasks_frame {A : Type} (f : World -> A) :
  (forall w k, f (resume_aborted w k) = f w) ->
  (forall w q, f (set_microtasks q w) = f w) ->
  forall w, f (run_microtasks w) = f w.
Proof.
  intros Hres Hset w. unfold run_microtasks. rewrite Hset.
  generalize (microtasks w). intros l. revert w.
  induction l as [|k l IH]; intros w; [done|].
  cbn [foldl]. rewrite IH. apply Hres.
Qed.

Lemma resume_aborted_storage w k : localStorage (resume_aborted w k) = localStorage w.
Proof. unfold resume_aborted. by destruct (requests w !! k). Qed.

Lemma resume_aborted_watched w k :
  watched (appState (resume_aborted w k)) = watched (appState w).
Proof.
  unfold resume_aborted. destruct (requests w !! k); [|done]. cbn. by destruct (mounted w).
Qed.

Lemma run_microtasks_storage w : localStorage (run_microtasks w) = localStorage w.
Proof. apply (run_microtasks_frame localStorage); [apply resume_aborted_storage|done]. Qed.

Lemma run_microtasks_watched w :
  watched (appState (run_microtasks w)) = watched (appState w).
Proof.
  apply (run_microtasks_frame (fun w => watched (appState w))); [apply resume_aborted_watched|done].
Qed.

Lemma abort_storage w k : localStorage (abort k w) = localStorage w.
Proof.
  unfold abort. destruct (requests w !! k) as [r|]; [|done]. by destruct (awaiting (req_phase r)).
Qed.

Lemma change_query_storage w q : localStorage (change_query q w) = localStorage w.
Proof.
  unfold change_query. destruct (String.eqb q (query (appState w))); [done|].
  unfold query_effect.
  destruct (Nat.eqb _ 0); cbn [localStorage set_cleanup set_state set_issued set_request];
    unfold run_cleanup; cbn [cleanup set_state]; (destruct (cleanup w); [|done]);
    by rewrite abort_storage.
Qed.

Lemma change_query_watched w q :
  watched (appState (change_query q w)) = watched (appState w).
Proof.
  unfold change_query. destruct (String.eqb q (query (appState w))); [done|].
  unfold query_effect.
  destruct (Nat.eqb _ 0); cbn [appState set_cleanup set_state set_issued set_request mounted];
    unfold run_cleanup; cbn [cleanup set_state mounted];
    (destruct (cleanup w); [rewrite !abort_app_state; unfold abort; cbn [requests set_state];
       destruct (requests w !! _) as [r|]; [destruct (awaiting (req_phase r))|]|]);
    cbn; by destruct (mounted w).
Qed.

Lemma resume_aborted_mounted w k : mounted (resume_aborted w k) = mounted w.
Proof. unfold resume_aborted. by destruct (requests w !! k). Qed.

Lemma run_microtasks_mounted w : mounted (run_microtasks w) = mounted w.
Proof. apply (run_microtasks_frame mounted); [apply resume_aborted_mounted|done]. Qed.

Lemma step_focus w el : microtasks w = [] -> step (Focus el) w = focus el w.
Proof. intros Hq. unfold step, handle. by apply run_microtasks_idle. Qed.

Lemma step_unmounted e w :
  microtasks w = [] -> mounted w = false ->
  (forall k r, requests w !! k = Some r -> req_phase r = Settled) ->
  (forall el, e <> Focus el) -> step e w = w.
Proof.
  intros Hq Hm Hs He. unfold step, handle.
  destruct e as [q|code|el|id| |movie|id|k r|k r| ]; rewrite ?Hm;
    try (by apply run_microtasks_idle).
  - by destruct (He el).
  - unfold on_fetch_settled. destruct (requests w !! k) as [req|] eqn:Hk;
      [rewrite (Hs k req Hk)|]; by apply run_microtasks_idle.
  - unfold on_json_settled. destruct (requests w !! k) as [req|] eqn:Hk;
      [rewrite (Hs k req Hk)|]; by apply run_microtasks_idle.
Qed.

(** A promise settles for a call that is not awaiting it. *)
Lemma fetch_settled_ignored w k req r :
  microtasks w = [] -> requests w !! k = Some req -> req_phase req <> AwaitingFetch ->
  step (FetchSettled k r) w = w.
Proof.
  intros Hq Hk Hph. unfold step, handle, on_fetch_settled. rewrite Hk.
  destruct (req_phase req); try done; by apply run_microtasks_idle.
Qed.

Lemma json_settled_ignored w k req r :
  microtasks w = [] -> requests w !! k = Some req -> req_phase req <> AwaitingJson ->
  step (JsonSettled k r) w = w.
Proof.
  intros Hq Hk Hph. unfold step, handle, on_json_settled. rewrite Hk.
  destruct (req_phase req); try done; by apply run_microtasks_idle.
Qed.

End Frames.

Section Extras.
Context `{P : Platform}.

Lemma step_storage_other_keys e w key :
  key <> "watched" -> localStorage (step e w) !! key = localStorage w !! key.
Proof.
  intros Hkey. unfold step. rewrite run_microtasks_storage. unfold handle.
  assert (Hcq : forall q w0, localStorage (change_query q w0) !! key = localStorage w0 !! key).
  { intros q w0. by rewrite change_query_storage. }
  destruct e as [q|code|el|id| |movie|id|k r|k r| ].
  - destruct (mounted w); [apply Hcq|done].
  - destruct (mounted w); [|done]. unfold callback. destruct (activeElement w); [done|].
    destruct (String.eqb code "Enter"); [|done]. by rewrite Hcq.
  - done.
  - by destruct (mounted w).
  - by destruct (mounted w).
  - destruct (mounted w); [|done]. cbn. by rewrite lookup_insert_ne.
  - destruct (mounted w); [|done]. cbn. by rewrite lookup_insert_ne.
  - unfold on_fetch_settled. destruct (requests w !! k) as [req|]; [|done].
    by destruct (req_phase req).
  - unfold on_json_settled. destruct (requests w !! k) as [req|]; [|done].
    by destruct (req_phase req).
  - destruct (mounted w); [|done]. cbn. unfold run_cleanup.
    destruct (cleanup w); [|done]. by rewrite abort_storage.
Qed.

(** X1. After every event [localStorage] holds under "watched" the text
    of the current watched list, and no event writes any other key. *)
Theorem storage_mirrors_watched (w : World) :
  reachable w ->
  localStorage w !! "watched" = Some (JSON_stringify (JArr (watched (appState w)))) /\
  (forall (e : Event) (key : string),
     key <> "watched" -> localStorage (step e w) !! key = localStorage w !! key).
Proof.
  intros Hr. split; [apply (inv_storage w), reachable_inv, Hr|].
  intros e key. apply step_storage_other_keys.
Qed.

Lemma prop_is_functional k s s' v :
  prop_is k s v = true -> prop_is k s' v = true -> s = s'.
Proof.
  unfold prop_is. destruct (get_prop k v) as [[[ | | |t| | ]|]|]; try discriminate.
  cbn. intros E1%String.eqb_eq E2%String.eqb_eq. congruence.
Qed.

Lemma count_after_delete id id' l :
  id' <> id ->
  count_id id' (List.filter (fun m => negb (prop_is "imdbID" id m)) l) = count_id id' l.
Proof.
  intros Hne. unfold count_id. induction l as [|x l IH]; [done|]. cbn [List.filter].
  destruct (prop_is "imdbID" id x) eqn:E; cbn [negb List.filter].
  - destruct (prop_is "imdbID" id' x) eqn:E'; [|done].
    destruct Hne. by apply (prop_is_functional "imdbID" id' id x).
  - destruct (prop_is "imdbID" id' x); cbn [length]; by rewrite IH.
Qed.

Lemma count_deleted id l :
  count_id id (List.filter (fun m => negb (prop_is "imdbID" id m)) l) = 0.
Proof.
  unfold count_id. induction l as [|x l IH]; [done|]. cbn [List.filter].
  destruct (prop_is "imdbID" id x) eqn:E; cbn [negb List.filter]; [done|]. by rewrite E.
Qed.

Lemma delete_absent id l :
  count_id id l = 0 -> List.filter (fun m => negb (prop_is "imdbID" id m)) l = l.
Proof.
  unfold count_id. induction l as [|x l IH]; [done|]. cbn [List.filter].
  destruct (prop_is "imdbID" id x); cbn [negb length]; [discriminate|].
  intros H0. by rewrite IH.
Qed.

Lemma filter_sublist (f : json -> bool) l : sublist (List.filter f l) l.
Proof.
  induction l as [|x l IH]; [constructor|]. cbn [List.filter].
  destruct (f x); by constructor.
Qed.

(** Writing back the text that is already stored changes nothing. *)
Lemma persist_same w :
  localStorage w !! "watched" = Some (JSON_stringify (JArr (watched (appState w)))) ->
  persist w = w.
Proof.
  intros Hs. unfold persist, setItem. rewrite insert_id by done. by destruct w.
Qed.

(** X2. Deleting removes every record that carries the identifier and
    keeps the others as they were and in their order; when no record
    carries it, the event changes nothing at all. *)
Theorem delete_watched_removes_matching (w : World) (id : string) :
  reachable w -> mounted w = true ->
  let w' := step (DeleteWatched id) w in
  count_id id (watched (appState w')) = 0 /\
  (forall id', id' <> id ->
     count_id id' (watched (appState w')) = count_id id' (watched (appState w))) /\
  sublist (watched (appState w')) (watched (appState w)) /\
  (count_id id (watched (appState w)) = 0 -> w' = w).
Proof.
  intros Hr Hm. cbv zeta. pose proof (reachable_inv w Hr) as HI.
  rewrite (step_delete w id (inv_queue w HI) Hm).
  assert (E : watched (appState (persist (set_state (handleDeleteWatched id) w)))
              = List.filter (fun m => negb (prop_is "imdbID" id m)) (watched (appState w))).
  { cbn. by rewrite Hm. }
  rewrite E. split; [apply count_deleted|]. split; [intros id'; apply count_after_delete|].
  split; [apply filter_sublist|].
  intros H0. pose proof (delete_absent id _ H0) as Hsame.
  assert (Es : set_state (handleDeleteWatched id) w = w).
  { destruct w as [a m ls rq n c mq el]. cbn in Hm, Hsame. subst m.
    unfold set_state, handleDeleteWatched, setWatched. cbn [mounted appState].
    rewrite Hsame. by destruct a. }
  rewrite Es. apply persist_same, (inv_storage w HI).
Qed.

(** X3. Adding a movie whose identifier no record carries and then
    deleting that identifier brings the world back to what it was,
    [localStorage] included. *)
Theorem add_then_delete_restores (w : World) (movie : list (string * json)) (id : string) :
  reachable w -> mounted w = true ->
  prop_is "imdbID" id (JObj movie) = true ->
  count_id id (watched (appState w)) = 0 ->
  run [AddWatched movie; DeleteWatched id] w = w.
Proof.
  intros Hr Hm Hid H0. cbn [run foldl]. pose proof (reachable_inv w Hr) as HI.
  pose proof (step_inv (AddWatched movie) w HI) as HI1.
  destruct (step_add_watched w movie (inv_queue w HI) Hm) as [_ Hm1].
  rewrite (step_delete _ id (inv_queue _ HI1) Hm1).
  rewrite (step_add w movie (inv_queue w HI) Hm).
  pose proof (inv_storage w HI) as Hs. pose proof (delete_absent id _ H0) as Hsame.
  destruct w as [a m ls rq n c mq el]. cbn in Hm, Hs, Hsame. subst m.
  unfold persist, setItem, set_state, handleDeleteWatched, handleAddWatched, setWatched.
  cbn [appState mounted localStorage requests issued cleanup microtasks activeElement
       watched movies isLoading error query selectedId].
  rewrite List.filter_app, Hsame. cbn [List.filter]. rewrite Hid. cbn [negb].
  rewrite List.app_nil_r. rewrite insert_insert_eq, insert_id by done. by destruct a.
Qed.

Lemma change_query_loading w q :
  Inv w -> mounted w = true -> q <> "" -> q <> query (appState w) ->
  isLoading (appState (run_microtasks (change_query q w))) = negb (in_flight w) /\
  in_flight (run_microtasks (change_query q w)) = true.
Proof.
  intros [Hq Hlive Hfresh Hlast Hload Hidle Hsto Hnn] Hm Hne0 Hne.
  destruct w as [a m ls rq n c mq el]; simpl in *; subst mq m.
  unfold change_query, in_flight; simpl.
  destruct (String.eqb_spec q (query a)) as [E|_]; [done|].
  unfold run_cleanup, abort, query_effect.
  cbn [set_state appState mounted query setQuery cleanup requests].
  assert (Hq0 : Nat.eqb (String.length q) 0 = false).
  { destruct q; [done|reflexivity]. }
  destruct c as [k|]; [destruct (rq !! k) as [r|] eqn:Hk; [destruct (awaiting (req_phase r)) eqn:Haw|]|];
    cbn [set_state set_request set_microtasks appState mounted query setQuery cleanup requests microtasks issued];
    rewrite Hq0; simpl;
    try (rewrite lookup_insert_eq; done).
  assert (Hkn : k < n) by eauto.
  unfold resume_aborted. simpl.
  rewrite lookup_insert_ne by lia. rewrite lookup_insert_eq. simpl.
  rewrite lookup_insert_ne by lia. rewrite lookup_insert_eq. done.
Qed.

(** X4. The loader after a new search. When the query changes to a new
    text that is not empty, [isLoading] ends [true] only if no call was
    in flight: a call that was still awaiting is aborted and its
    [finally] runs [setIsLoading(false)] after the new call has set it to
    [true]. Either way the new call is in flight. *)
Theorem loader_after_new_query (w : World) (q : string) :
  reachable w -> mounted w = true -> q <> "" -> q <> query (appState w) ->
  let w' := step (Input q) w in
  isLoading (appState w') = negb (in_flight w) /\ in_flight w' = true /\
  showError (appState w') = false.
Proof.
  intros Hr Hm Hq Hne. cbv zeta. pose proof (reachable_inv w Hr) as HI.
  assert (E : step (Input q) w = run_microtasks (change_query q w)).
  { unfold step, handle. by rewrite Hm. }
  rewrite E. destruct (change_query_loading w q HI Hm Hq Hne) as [H1 H2].
  destruct (change_query_new w q HI Hm Hq Hne) as (_ & _ & _ & _ & _ & He & _).
  unfold showError. by rewrite He.
Qed.

(** X5. A new search. Changing the query to a new text that is not empty
    issues exactly one call, for the address made of the API key and the
    text as typed; it closes the detail view, clears the error and keeps
    the movies shown so far; every other call is finished. Emptying the
    query leaves the detail view as it is. *)
Theorem new_query_issues_one_call (w : World) :
  reachable w -> mounted w = true ->
  (forall q : string, q <> "" -> q <> query (appState w) ->
     let w' := step (Input q) w in
     query (appState w') = q /\ issued w' = S (issued w) /\
     requests w' !! issued w =
       Some {| req_url := "http://www.omdbapi.com/?apikey=" +:+ default "undefined" apiKey
                            +:+ "&s=" +:+ q;
               req_phase := AwaitingFetch |} /\
     (forall k r, k <> issued w -> requests w' !! k = Some r -> req_phase r = Settled) /\
     selectedId (appState w') = None /\ error (appState w') = "" /\
     movies (appState w') = movies (appState w)) /\
  selectedId (appState (step (Input "") w)) = selectedId (appState w).
Proof.
  intros Hr Hm. pose proof (reachable_inv w Hr) as HI.
  assert (E : forall q, step (Input q) w = run_microtasks (change_query q w)).
  { intros q. unfold step, handle. by rewrite Hm. }
  split.
  - intros q Hq Hne. cbv zeta. pose proof (step_inv (Input q) w HI) as HI'.
    rewrite E in *.
    destruct (change_query_new w q HI Hm Hq Hne)
      as (H1 & H2 & H3 & H4 & _ & H6 & H7 & H8 & _).
    repeat split; try done.
    intros k r Hk Hkr. destruct (inv_live _ HI' k r Hkr) as [?|(Hc & _)]; [done|].
    rewrite H3 in Hc. congruence.
  - rewrite E. by destruct (change_query_empty w HI Hm) as (_ & _ & _ & _ & _ & _ & ? & _).
Qed.

Lemma after_json_query r a : query (fetchMovies_after_json r a) = query a.
Proof.
  unfold fetchMovies_after_json. destruct r as [data|err].
  - destruct (get_prop "Response" data) as [resp|err].
    + destruct (is_string "False" resp).
      * by destruct (catch_finally_rest (Error "Movie not found") a) as (_ & _ & ? & _).
      * destruct (get_prop "Search" data) as [search|err]; [done|].
        by destruct (catch_finally_rest err a) as (_ & _ & ? & _).
    + by destruct (catch_finally_rest err a) as (_ & _ & ? & _).
  - by destruct (catch_finally_rest err a) as (_ & _ & ? & _).
Qed.

Lemma live_call_url (w : World) :
  reachable w ->
  forall k r, requests w !! k = Some r -> awaiting (req_phase r) = true ->
    req_url r = request_url (query (appState w)).
Proof.
  induction 1 as [ls el w Hmount|e w Hr IH].
  - unfold mount in Hmount. destruct (watched_initializer ls) as [v|]; [|done].
    destruct (first_render v) as [l|]; [|done]. injection Hmount as <-.
    intros k r Hk. cbn in Hk. by rewrite lookup_empty in Hk.
  - pose proof (reachable_inv w Hr) as HI. pose proof (step_inv e w HI) as HI'.
    pose proof (inv_queue w HI) as Hq.
    intros k r Hk Haw.
    destruct (inv_live _ HI' k r Hk) as [Hs|(Hc & _ & Hm')]; [by rewrite Hs in Haw|].
    assert (Hcq : forall q w0, Inv w0 -> mounted w0 = true ->
              (forall k r, requests w0 !! k = Some r -> awaiting (req_phase r) = true ->
                 req_url r = request_url (query (appState w0))) ->
              step e w = run_microtasks (change_query q w0) ->
              req_url r = request_url (query (appState (step e w)))).
    { intros q w0 HI0 Hm0 IH0 E. rewrite E in *.
      destruct (String.eqb_spec q (query (appState w0))) as [->|Hne].
      - unfold change_query in *. rewrite String.eqb_refl in *.
        rewrite run_microtasks_idle in * by apply HI0. by apply (IH0 k r).
      - destruct (String.eqb_spec q "") as [->|Hq0].
        + destruct (change_query_empty w0 HI0 Hm0) as (Hqe & _).
          destruct (inv_idle _ HI' Hqe) as (_ & _ & _ & Hcn). congruence.
        + destruct (change_query_new w0 q HI0 Hm0 Hq0 Hne) as (Hqq & _ & Hc' & Hk' & _).
          rewrite Hc in Hc'. injection Hc' as ->. rewrite Hk in Hk'. injection Hk' as ->.
          by rewrite Hqq. }
    destruct (mounted w) eqn:Hm.
    2: { assert (Hall : forall k1 r1, requests w !! k1 = Some r1 -> req_phase r1 = Settled).
         { intros k1 r1 Hk1. destruct (inv_live w HI k1 r1 Hk1) as [?|(_ & _ & ?)]; [done|congruence]. }
         assert (E : step e w = w \/ exists el, step e w = focus el w).
         { destruct e as [q|code|el|id| |movie|id|k0 r0|k0 r0| ];
             try (left; apply step_unmounted; done).
           right. exists el. by apply step_focus. }
         destruct E as [E|[el E]]; rewrite E in *; by apply (IH k r). }
    destruct e as [q|code|el|id| |movie|id|k0 r0|k0 r0| ].
    + apply (Hcq q w HI Hm IH). unfold step, handle. by rewrite Hm.
    + assert (E : step (KeyDown code) w = w \/
                  step (KeyDown code) w = run_microtasks (change_query "" (focus SearchInput w))).
      { unfold step, handle, callback. rewrite Hm. destruct (activeElement w).
        - left. by apply run_microtasks_idle.
        - destruct (String.eqb code "Enter"); [by right|left; by apply run_microtasks_idle]. }
      destruct E as [E|E].
      * rewrite E in *. by apply (IH k r).
      * apply (Hcq "" (focus SearchInput w)); [by apply focus_inv|done|done|done].
    + rewrite step_focus in * by done. by apply (IH k r).
    + rewrite step_select in * by done. cbn in *. rewrite Hm in *. by apply (IH k r).
    + rewrite step_close in * by done. cbn in *. rewrite Hm in *. by apply (IH k r).
    + rewrite step_add in * by done. cbn in *. rewrite Hm in *. by apply (IH k r).
    + rewrite step_delete in * by done. cbn in *. rewrite Hm in *. by apply (IH k r).
    + destruct (requests w !! k0) as [req|] eqn:Hk0.
      2: { rewrite (proj1 (unknown_call_ignores w k0 Hq Hk0)) in *. by apply (IH k r). }
      destruct (req_phase req) eqn:Hph.
      2-4: rewrite (fetch_settled_ignored w k0 req r0 Hq Hk0 ltac:(by rewrite Hph)) in *;
           by apply (IH k r).
      assert (Hdec : r0 = Normal true \/ r0 <> Normal true).
      { destruct r0 as [[|]|err]; [by left|by right..]. }
      destruct Hdec as [->|Hr0].
      * rewrite (step_fetch_ok w k0 req Hq Hk0 Hph) in *. cbn in Hk |- *.
        rewrite lookup_insert in Hk. case_decide.
        -- injection Hk as <-. cbn. apply (IH k0 req Hk0). by rewrite Hph.
        -- by apply (IH k r).
      * rewrite (step_fetch_fails w k0 req r0 Hq Hk0 Hph Hr0) in *. cbn in Hk |- *.
        rewrite Hm. destruct (catch_finally_rest
          match r0 with Throw err => err | Normal _ => Error "Something went wrong while fetching movies" end
          (appState w)) as (_ & _ & -> & _).
        rewrite lookup_insert in Hk. case_decide.
        -- injection Hk as <-. done.
        -- by apply (IH k r).
    + destruct (requests w !! k0) as [req|] eqn:Hk0.
      2: { rewrite (proj2 (unknown_call_ignores w k0 Hq Hk0)) in *. by apply (IH k r). }
      destruct (req_phase req) eqn:Hph.
      1,3,4: rewrite (json_settled_ignored w k0 req r0 Hq Hk0 ltac:(by rewrite Hph)) in *;
           by apply (IH k r).
      rewrite (step_json w k0 req r0 Hq Hk0 Hph) in *. cbn in Hk |- *.
      rewrite Hm, after_json_query.
      rewrite lookup_insert in Hk. case_decide.
      * injection Hk as <-. done.
      * by apply (IH k r).
    + assert (Hmf : mounted (step Unmount w) = false).
      { unfold step. rewrite run_microtasks_mounted. unfold handle. by rewrite Hm. }
      congruence.
Qed.

(** X6. At most one call is in flight. In every reachable world a call
    that has not finished is the one issued last, it is the one the
    cleanup of the effect will abort, and it was issued for the query
    that is current; the component is then mounted and its query is not
    empty. *)
Theorem one_call_in_flight (w : World) :
  reachable w ->
  forall k r, requests w !! k = Some r -> req_phase r <> Settled ->
    issued w = S k /\ cleanup w = Some k /\ awaiting (req_phase r) = true /\
    req_url r = request_url (query (appState w)) /\
    mounted w = true /\ query (appState w) <> "".
Proof.
  intros Hr k r Hk Hph. pose proof (reachable_inv w Hr) as HI.
  destruct (inv_live w HI k r Hk) as [?|(Hc & Haw & Hm)]; [done|].
  split; [by apply (inv_latest w HI)|]. split; [done|]. split; [done|].
  split; [by apply (live_call_url w Hr k r)|]. split; [done|].
  intros Hq. apply (inv_idle w HI) in Hq as (_ & _ & _ & ?). congruence.
Qed.

(** X7. Failures of a call that was not cancelled. When [fetch] rejects,
    or [response.json()] rejects, with an error that is not an
    [AbortError], the message of that error is recorded; a body that is
    [null] is reported as an error too. In each case the loading ends,
    the movies shown stay, and no call is left in flight. *)
Theorem failed_fetch_records_message (w : World) (k : nat) (req : Request) (err : JsError) :
  reachable w -> mounted w = true ->
  requests w !! k = Some req -> req_phase req = AwaitingFetch ->
  err_name err <> "AbortError" ->
  (let w' := step (FetchSettled k (Throw err)) w in
   error (appState w') = err_message err /\ isLoading (appState w') = false /\
   movies (appState w') = movies (appState w) /\ in_flight w' = false) /\
  (let w' := run [FetchSettled k (Normal true); JsonSettled k (Throw err)] w in
   error (appState w') = err_message err /\ isLoading (appState w') = false /\
   movies (appState w') = movies (appState w) /\ in_flight w' = false) /\
  (let w' := run [FetchSettled k (Normal true); JsonSettled k (Normal JNull)] w in
   showError (appState w') = true /\ isLoading (appState w') = false /\
   movies (appState w') = movies (appState w) /\ in_flight w' = false).
Proof.
  intros Hr Hm Hk Hph Hname. pose proof (reachable_inv w Hr) as HI.
  pose proof (inv_queue w HI) as Hq.
  assert (Hc : cleanup w = Some k).
  { destruct (inv_live w HI k req Hk) as [?|(? & _)]; [congruence|done]. }
  assert (Hneq : String.eqb (err_name err) "AbortError" = false).
  { by apply String.eqb_neq. }
  assert (Hjson : forall r,
    run [FetchSettled k (Normal true); JsonSettled k r] w
    = set_request k (in_phase Settled (in_phase AwaitingJson req))
        (set_state (fetchMovies_after_json r) (set_request k (in_phase AwaitingJson req) w))).
  { intros r. cbn [run foldl]. rewrite (step_fetch_ok w k req Hq Hk Hph).
    rewrite (step_json _ k (in_phase AwaitingJson req)); [done|done|apply lookup_insert_eq|done]. }
  split; [|split]; cbv zeta.
  - rewrite (step_fetch_fails w k req _ Hq Hk Hph) by done.
    unfold in_flight. cbn. rewrite Hm, Hc, lookup_insert_eq. cbn.
    unfold catch_. rewrite Hneq. done.
  - rewrite Hjson. unfold in_flight. cbn. rewrite Hm, Hc, lookup_insert_eq. cbn.
    unfold catch_. rewrite Hneq. done.
  - rewrite Hjson. unfold in_flight. cbn. rewrite Hm, Hc, lookup_insert_eq. done.
Qed.

(** X8. Teardown. Unmounting aborts the call in flight: afterwards the
    component is unmounted, every call is finished, [localStorage] is as
    it was, and no later event other than a move of the focus changes
    the world. *)
Theorem unmount_silences_everything (w : World) :
  reachable w ->
  let w' := step Unmount w in
  mounted w' = false /\
  (forall k r, requests w' !! k = Some r -> req_phase r = Settled) /\
  localStorage w' = localStorage w /\
  (forall e : Event, (forall el, e <> Focus el) -> step e w' = w').
Proof.
  intros Hr. cbv zeta. pose proof (reachable_inv w Hr) as HI.
  pose proof (step_inv Unmount w HI) as HI'.
  assert (Hmf : mounted (step Unmount w) = false).
  { unfold step. rewrite run_microtasks_mounted. unfold handle.
    by destruct (mounted w) eqn:Hm. }
  assert (Hall : forall k r, requests (step Unmount w) !! k = Some r -> req_phase r = Settled).
  { intros k r Hk. destruct (inv_live _ HI' k r Hk) as [?|(_ & _ & ?)]; [done|congruence]. }
  split; [done|]. split; [done|]. split.
  - unfold step. rewrite run_microtasks_storage. unfold handle.
    destruct (mounted w); [|done]. cbn. unfold run_cleanup.
    destruct (cleanup w); [|done]. by rewrite abort_storage.
  - intros e He. by apply step_unmounted; [apply HI'|..].
Qed.

(** X9. The stored watched list is taken as it is parsed. When the text
    under "watched" is JSON for anything but an array, or for an array
    with a [null] item, the first render throws a [TypeError] in
    [WatchedSummary] and [App] does not mount. *)
Theorem mount_needs_a_list (ls : gmap string string) (el : Element) (s : string) (v : json) :
  ls !! "watched" = Some s -> s <> "" -> JSON_parse s = Some v ->
  ((forall l, v <> JArr l) ->
     exists e, mount ls el = Throw e /\ err_name e = "TypeError") /\
  (forall l, v = JArr l -> In JNull l ->
     exists e, mount ls el = Throw e /\ err_name e = "TypeError").
Proof.
  intros Hk Hs Hp.
  assert (E : watched_initializer ls = Normal v).
  { unfold watched_initializer. rewrite Hk. destruct s; [done|]. cbn [truthy]. by rewrite Hp. }
  unfold mount. rewrite E. split.
  - intros Hv. destruct v as [ |b|n|t|l|ms]; cbn [first_render]; eauto.
    by destruct (Hv l).
  - intros l -> Hin. cbn [first_render].
    assert (Hex : existsb is_null l = true).
    { apply existsb_exists. by exists JNull. }
    rewrite Hex. eauto.
Qed.

Lemma after_fetch_watched r a : watched (fst (fetchMovies_after_fetch r a)) = watched a.
Proof.
  unfold fetchMovies_after_fetch, finally_, catch_. destruct r as [[|]|err]; cbn; try done.
  by destruct (String.eqb (err_name err) "AbortError").
Qed.

Lemma after_json_watched r a : watched (fetchMovies_after_json r a) = watched a.
Proof.
  unfold fetchMovies_after_json. destruct r as [data|err].
  - destruct (get_prop "Response" data) as [resp|err].
    + destruct (is_string "False" resp).
      * by destruct (catch_finally_rest (Error "Movie not found") a) as (_ & _ & _ & _ & ?).
      * destruct (get_prop "Search" data) as [search|err]; [done|].
        by destruct (catch_finally_rest err a) as (_ & _ & _ & _ & ?).
    + by destruct (catch_finally_rest err a) as (_ & _ & _ & _ & ?).
  - by destruct (catch_finally_rest err a) as (_ & _ & _ & _ & ?).
Qed.

(** X10. The watched list and the search do not touch each other. Adding
    or deleting a watched movie leaves the movies found, the loading
    flag, the error, the query, the selection and the calls as they are;
    every other event leaves the watched list and [localStorage] as they
    are. *)
Theorem watched_and_search_are_independent (w : World) (e : Event) :
  reachable w ->
  let w' := step e w in
  match e with
  | AddWatched _ | DeleteWatched _ =>
      movies (appState w') = movies (appState w) /\
      isLoading (appState w') = isLoading (appState w) /\
      error (appState w') = error (appState w) /\
      query (appState w') = query (appState w) /\
      selectedId (appState w') = selectedId (appState w) /\
      requests w' = requests w /\ issued w' = issued w /\ cleanup w' = cleanup w
  | _ =>
      watched (appState w') = watched (appState w) /\ localStorage w' = localStorage w
  end.
Proof.
  intros Hr. cbv zeta. pose proof (reachable_inv w Hr) as HI.
  pose proof (inv_queue w HI) as Hq.
  assert (Hidle : mounted w = false -> forall e0,
            match e0 with Focus _ | FetchSettled _ _ | JsonSettled _ _ => False | _ => True end ->
            step e0 w = w).
  { intros Hm e0 He0. unfold step, handle.
    destruct e0; try done; rewrite ?Hm; by apply run_microtasks_idle. }
  destruct e as [q|code|el|id| |movie|id|k r|k r| ].
  - unfold step. rewrite run_microtasks_watched, run_microtasks_storage. unfold handle.
    destruct (mounted w); [|done]. by rewrite change_query_watched, change_query_storage.
  - unfold step. rewrite run_microtasks_watched, run_microtasks_storage. unfold handle, callback.
    destruct (mounted w); [|done]. destruct (activeElement w); [done|].
    destruct (String.eqb code "Enter"); [|done].
    by rewrite change_query_watched, change_query_storage.
  - by rewrite step_focus.
  - destruct (mounted w) eqn:Hm; [|by rewrite Hidle].
    rewrite step_select by done. cbn. by rewrite Hm.
  - destruct (mounted w) eqn:Hm; [|by rewrite Hidle].
    rewrite step_close by done. cbn. by rewrite Hm.
  - destruct (mounted w) eqn:Hm; [|by rewrite Hidle].
    rewrite step_add by done. cbn. by rewrite Hm.
  - destruct (mounted w) eqn:Hm; [|by rewrite Hidle].
    rewrite step_delete by done. cbn. by rewrite Hm.
  - unfold step. rewrite run_microtasks_watched, run_microtasks_storage.
    unfold handle, on_fetch_settled. destruct (requests w !! k) as [req|]; [|done].
    destruct (req_phase req); try done. cbn.
    destruct (mounted w); [|done]. by rewrite after_fetch_watched.
  - unfold step. rewrite run_microtasks_watched, run_microtasks_storage.
    unfold handle, on_json_settled. destruct (requests w !! k) as [req|]; [|done].
    destruct (req_phase req); try done. cbn.
    destruct (mounted w); [|done]. by rewrite after_json_watched.
  - unfold step. rewrite run_microtasks_watched, run_microtasks_storage. unfold handle.
    destruct (mounted w); [|done]. cbn. unfold run_cleanup.
    destruct (cleanup w); [|done]. by rewrite abort_app_state, abort_storage.
Qed.

Lemma resume_aborted_movies w k :
  movies (appState (resume_aborted w k)) = movies (appState w).
Proof.
  unfold resume_aborted. destruct (requests w !! k); [|done]. cbn. by destruct (mounted w).
Qed.

Lemma run_microtasks_movies w :
  movies (appState (run_microtasks w)) = movies (appState w).
Proof.
  apply (run_microtasks_frame (fun w => movies (appState w))); [apply resume_aborted_movies|done].
Qed.

(** X11. The movies shown change on two occasions only: the query became
    empty, which empties them, or the body of the call in flight arrived
    and [data.Search] replaced them. No other event, and no response of
    an earlier call, replaces the movies. *)
Theorem movies_change_only_by_reset_or_latest_response (w : World) (e : Event) :
  reachable w ->
  movies (appState (step e w)) <> movies (appState w) ->
  (query (appState (step e w)) = "" /\ movies (appState (step e w)) = Some (JArr [])) \/
  (exists k data search,
     e = JsonSettled k (Normal data) /\ cleanup w = Some k /\ issued w = S k /\
     get_prop "Search" data = Normal search /\ movies (appState (step e w)) = search).
Proof.
  intros Hr Hne. pose proof (reachable_inv w Hr) as HI.
  pose proof (inv_queue w HI) as Hq. pose proof (step_inv e w HI) as HI'.
  assert (Hcq : forall q w0, Inv w0 -> mounted w0 = true ->
            movies (appState w0) = movies (appState w) ->
            step e w = run_microtasks (change_query q w0) ->
            query (appState (step e w)) = "" /\ movies (appState (step e w)) = Some (JArr [])).
  { intros q w0 HI0 Hm0 Hmv E.
    destruct (String.eqb_spec q (query (appState w0))) as [->|Hnq].
    - destruct Hne. rewrite E. unfold change_query. rewrite String.eqb_refl.
      by rewrite run_microtasks_movies.
    - destruct (String.eqb_spec q "") as [->|Hq0].
      + destruct (change_query_empty w0 HI0 Hm0) as (Hqe & _). rewrite <- E in Hqe.
        split; [done|]. by apply (inv_idle _ HI').
      + destruct (change_query_new w0 q HI0 Hm0 Hq0 Hnq) as (_ & _ & _ & _ & _ & _ & _ & Hmv' & _).
        destruct Hne. rewrite E. congruence. }
  destruct e as [q|code|el|id| |movie|id|k r|k r| ].
  - left. destruct (mounted w) eqn:Hm.
    + apply (Hcq q w); try done. unfold step, handle. by rewrite Hm.
    + destruct Hne. unfold step, handle. rewrite Hm. by rewrite run_microtasks_idle.
  - left. destruct (mounted w) eqn:Hm.
    + assert (E : step (KeyDown code) w = w \/
                  step (KeyDown code) w = run_microtasks (change_query "" (focus SearchInput w))).
      { unfold step, handle, callback. rewrite Hm. destruct (activeElement w).
        - left. by apply run_microtasks_idle.
        - destruct (String.eqb code "Enter"); [by right|left; by apply run_microtasks_idle]. }
      destruct E as [E|E]; [destruct Hne; by rewrite E|].
      apply (Hcq "" (focus SearchInput w)); try done. by apply focus_inv.
    + destruct Hne. unfold step, handle. rewrite Hm. by rewrite run_microtasks_idle.
  - destruct Hne. by rewrite step_focus.
  - destruct Hne. unfold step, handle. rewrite run_microtasks_movies.
    destruct (mounted w) eqn:Hm; [|done]. cbn. by rewrite Hm.
  - destruct Hne. unfold step, handle. rewrite run_microtasks_movies.
    destruct (mounted w) eqn:Hm; [|done]. cbn. by rewrite Hm.
  - destruct Hne. unfold step, handle. rewrite run_microtasks_movies.
    destruct (mounted w) eqn:Hm; [|done]. cbn. by rewrite Hm.
  - destruct Hne. unfold step, handle. rewrite run_microtasks_movies.
    destruct (mounted w) eqn:Hm; [|done]. cbn. by rewrite Hm.
  - destruct Hne. unfold step, handle. rewrite run_microtasks_movies.
    unfold on_fetch_settled. destruct (requests w !! k) as [req|]; [|done].
    destruct (req_phase req); try done. cbn. destruct (mounted w); [|done].
    unfold fetchMovies_after_fetch, finally_, catch_. destruct r as [[|]|err]; cbn; try done.
    by destruct (String.eqb (err_name err) "AbortError").
  - destruct (requests w !! k) as [req|] eqn:Hk.
    2: { destruct Hne. by rewrite (proj2 (unknown_call_ignores w k Hq Hk)). }
    destruct (req_phase req) eqn:Hph.
    1,3,4: destruct Hne; by rewrite (json_settled_ignored w k req r Hq Hk ltac:(by rewrite Hph)).
    destruct (inv_live w HI k req Hk) as [?|(Hc & _ & Hm)]; [congruence|].
    rewrite (step_json w k req r Hq Hk Hph) in *. cbn in Hne |- *. rewrite Hm in *.
    unfold fetchMovies_after_json in *.
    destruct r as [data|err].
    + destruct (get_prop "Response" data) as [resp|err] eqn:Hresp.
      * destruct (is_string "False" resp).
        { destruct Hne. by destruct (catch_finally_rest (Error "Movie not found") (appState w)) as (_ & ? & _). }
        destruct (get_prop "Search" data) as [search|err] eqn:Hsearch.
        -- right. exists k, data, search. repeat split; try done. by apply (inv_latest w HI).
        -- destruct Hne. by destruct (catch_finally_rest err (appState w)) as (_ & ? & _).
      * destruct Hne. by destruct (catch_finally_rest err (appState w)) as (_ & ? & _).
    + destruct Hne. by destruct (catch_finally_rest err (appState w)) as (_ & ? & _).
  - destruct Hne. unfold step, handle. rewrite run_microtasks_movies.
    destruct (mounted w); [|done]. cbn. unfold run_cleanup.
    destruct (cleanup w); [|done]. by rewrite abort_app_state.
Qed.

End Extras.

Section ExtraExamples.
#[local] Existing Instance reference_platform.

Lemma storage_mirrors_watched_witness :
  let w := step (AddWatched batman_record) demo_world in
  localStorage w !! "watched" = Some (JSON_stringify (JArr [JObj batman_record])) /\
  localStorage (step (DeleteWatched "tt1") w) !! "theme" = localStorage w !! "theme".
Proof.
  destruct (storage_mirrors_watched (step (AddWatched batman_record) demo_world)) as [H1 H2].
  - apply reachable_step, demo_reachable.
  - split; [exact H1|]. apply H2. discriminate.
Defined.

Lemma delete_watched_removes_matching_witness :
  let w := run [AddWatched batman_record; AddWatched joker_record] demo_world in
  count_id "tt1" (watched (appState (step (DeleteWatched "tt1") w))) = 0 /\
  count_id "tt2" (watched (appState (step (DeleteWatched "tt1") w))) = 1 /\
  step (DeleteWatched "tt9") w = w.
Proof.
  set (w := run [AddWatched batman_record; AddWatched joker_record] demo_world).
  assert (Hr : reachable w) by (do 2 apply reachable_step; apply demo_reachable).
  destruct (delete_watched_removes_matching w "tt1" Hr eq_refl) as (H1 & H2 & _ & _).
  destruct (delete_watched_removes_matching w "tt9" Hr eq_refl) as (_ & _ & _ & H4).
  split; [exact H1|]. split.
  - rewrite (H2 "tt2"); [reflexivity|discriminate].
  - apply H4. reflexivity.
Defined.

Lemma add_then_delete_restores_witness :
  run [AddWatched batman_record; DeleteWatched "tt1"] demo_world = demo_world.
Proof.
  apply (add_then_delete_restores demo_world batman_record "tt1" demo_reachable);
    reflexivity.
Defined.

Lemma loader_after_new_query_witness :
  isLoading (appState (step (Input "batman") demo_world)) = true /\
  isLoading (appState (run [Input "batman"; Input "joker"] demo_world)) = false /\
  in_flight (run [Input "batman"; Input "joker"] demo_world) = true.
Proof.
  destruct (loader_after_new_query demo_world "batman" demo_reachable eq_refl)
    as (H1 & _ & _); [discriminate..|].
  destruct (loader_after_new_query (step (Input "batman") demo_world) "joker")
    as (H2 & H3 & _); [apply reachable_step, demo_reachable|reflexivity|discriminate..|].
  split; [exact H1|]. split; [exact H2|exact H3].
Defined.

Lemma new_query_issues_one_call_witness :
  let w' := step (Input "batman") demo_world in
  requests w' !! 0 =
    Some {| req_url := "http://www.omdbapi.com/?apikey=4a3b711b&s=batman";
            req_phase := AwaitingFetch |} /\
  issued w' = 1 /\ selectedId (appState w') = None.
Proof.
  destruct (new_query_issues_one_call demo_world demo_reachable eq_refl) as [H _].
  destruct (H "batman") as (_ & H2 & H3 & _ & H5 & _); [discriminate..|].
  split; [exact H3|]. split; [exact H2|exact H5].
Defined.

Lemma one_call_in_flight_witness :
  let w := run [Input "batman"; Input "joker"] demo_world in
  issued w = 2 /\ cleanup w = Some 1 /\ query (appState w) <> "".
Proof.
  destruct (one_call_in_flight (run [Input "batman"; Input "joker"] demo_world)) with
    (k := 1) (r := {| req_url := request_url "joker"; req_phase := AwaitingFetch |})
    as (H1 & H2 & _ & _ & _ & H6).
  - do 2 apply reachable_step. apply demo_reachable.
  - reflexivity.
  - discriminate.
  - split; [exact H1|]. split; [exact H2|exact H6].
Defined.

Lemma failed_fetch_records_message_witness :
  let w := step (Input "batman") demo_world in
  error (appState (step (FetchSettled 0 (Throw (TypeError "Failed to fetch"))) w))
    = "Failed to fetch" /\
  showError (appState (run [FetchSettled 0 (Normal true); JsonSettled 0 (Normal JNull)] w)) = true.
Proof.
  destruct (failed_fetch_records_message (step (Input "batman") demo_world) 0
              {| req_url := request_url "batman"; req_phase := AwaitingFetch |}
              (TypeError "Failed to fetch"))
    as ((H1 & _) & _ & (H3 & _)).
  - apply reachable_step, demo_reachable.
  - reflexivity.
  - reflexivity.
  - reflexivity.
  - discriminate.
  - split; [exact H1|exact H3].
Defined.

Lemma unmount_silences_everything_witness :
  let w' := step Unmount (step (Input "batman") demo_world) in
  mounted w' = false /\ step (FetchSettled 0 (Normal true)) w' = w' /\
  step (Input "joker") w' = w'.
Proof.
  destruct (unmount_silences_everything (step (Input "batman") demo_world))
    as (H1 & _ & _ & H4).
  - apply reachable_step, demo_reachable.
  - split; [exact H1|]. split; apply H4; discriminate.
Defined.

Lemma mount_needs_a_list_witness :
  (exists e, mount (<["watched" := "42"]> ∅) Elsewhere = Throw e /\ err_name e = "TypeError") /\
  (exists e, mount (<["watched" := "[null]"]> ∅) Elsewhere = Throw e /\ err_name e = "TypeError").
Proof.
  split.
  - apply (mount_needs_a_list (<["watched" := "42"]> ∅) Elsewhere "42" (JNum 42));
      [reflexivity|discriminate|reflexivity|discriminate].
  - apply (mount_needs_a_list (<["watched" := "[null]"]> ∅) Elsewhere "[null]" (JArr [JNull]))
      with (l := [JNull]); [reflexivity|discriminate|reflexivity|reflexivity|].
    left. reflexivity.
Defined.

Lemma watched_and_search_are_independent_witness :
  let w := step (Input "batman") demo_world in
  isLoading (appState (step (AddWatched batman_record) w)) = isLoading (appState w) /\
  watched (appState (step (FetchSettled 0 (Normal false)) w)) = watched (appState w).
Proof.
  assert (Hr : reachable (step (Input "batman") demo_world))
    by (apply reachable_step, demo_reachable).
  pose proof (watched_and_search_are_independent _ (AddWatched batman_record) Hr) as H1.
  pose proof (watched_and_search_are_independent _ (FetchSettled 0 (Normal false)) Hr) as H2.
  cbv zeta in H1, H2. destruct H1 as (_ & H1 & _). destruct H2 as (H2 & _).
  split; [exact H1|exact H2].
Defined.

Lemma movies_change_only_by_reset_or_latest_response_witness :
  let w := run [Input "batman"; FetchSettled 0 (Normal true)] demo_world in
  exists search, get_prop "Search" batman_body = Normal search /\
    movies (appState (step (JsonSettled 0 (Normal batman_body)) w)) = search.
Proof.
  destruct (movies_change_only_by_reset_or_latest_response
              (run [Input "batman"; FetchSettled 0 (Normal true)] demo_world)
              (JsonSettled 0 (Normal batman_body)))
    as [[H _]|(k & data & search & He & _ & _ & Hs & Hm)].
  - do 2 apply reachable_step. apply demo_reachable.
  - discriminate.
  - discriminate H.
  - injection He as <- <-. exists search. split; [exact Hs|exact Hm].
Defined.

End ExtraExamples.
